(** * mrbc: the mruby compiler driver (mrbgems/mruby-bin-mrbc/tools/mrbc/mrbc.c)

    A shallow embedding of the driver: the C string primitives it uses,
    [get_outfilename], [parse_args], [partial_hook], [load_file],
    [dump_file] and [main], followed by the properties of the driver. *)

From Stdlib Require Import String Ascii List ZArith Lia Bool Arith.
Import ListNotations.

(** ** C strings in memory *)

Module CStr.

(** The terminator of a C string. *)
Definition NUL : ascii := Ascii.zero.

Definition is_nul (c : ascii) : bool := Ascii.eqb c NUL.

(** The bytes of a C string holding [s]: its characters and the terminator. *)
Definition to_bytes (s : string) : list ascii :=
  list_ascii_of_string s ++ [NUL].

(** [c] occurs in [s]. *)
Definition has_char (c : ascii) (s : string) : bool :=
  existsb (Ascii.eqb c) (list_ascii_of_string s).

(** A string the C side can hold: no character of it is the terminator. *)
Definition nul_free (s : string) : bool := negb (has_char NUL s).

(** strlen: the number of bytes before the first terminator. *)
Fixpoint strlen (m : list ascii) : nat :=
  match m with
  | [] => 0
  | c :: m' => if is_nul c then 0 else S (strlen m')
  end.

(** strrchr for a character other than the terminator: the offset of the last
    occurrence of [c] before the terminator, [None] for a null pointer. *)
Fixpoint strrchr (m : list ascii) (c : ascii) : option nat :=
  match m with
  | [] => None
  | x :: m' =>
      if is_nul x then None
      else match strrchr m' c with
           | Some k => Some (S k)
           | None => if Ascii.eqb x c then Some 0 else None
           end
  end.

(** The [n] bytes strncpy stores: the bytes of [src] up to its terminator,
    then terminators up to [n] bytes; no terminator when [src] is longer. *)
Fixpoint strncpy_bytes (src : list ascii) (n : nat) {struct n} : list ascii :=
  match n with
  | 0 => []
  | S n' =>
      match src with
      | [] => repeat NUL (S n')
      | c :: src' =>
          if is_nul c then repeat NUL (S n') else c :: strncpy_bytes src' n'
      end
  end.

(** A buffer from mrb_malloc: every byte starts uninitialised ([None]). *)
Definition buffer := list (option ascii).

Definition mrb_malloc (n : nat) : buffer := repeat None n.

(** Store [bytes] at offset [pos]; [None] when the store leaves the buffer. *)
Definition store (buf : buffer) (pos : nat) (bytes : list ascii) : option buffer :=
  if (pos + length bytes <=? length buf)%nat
  then Some (firstn pos buf ++ map Some bytes ++ skipn (pos + length bytes) buf)
  else None.

Definition strncpy (dst : buffer) (pos : nat) (src : list ascii) (n : nat)
  : option buffer :=
  store dst pos (strncpy_bytes src n).

(** Read the C string at the start of a buffer; [None] when an uninitialised
    byte or the end of the buffer comes before a terminator. *)
Fixpoint load_cstr (buf : buffer) : option string :=
  match buf with
  | [] => None
  | None :: _ => None
  | Some c :: buf' =>
      if is_nul c then Some EmptyString
      else option_map (String c) (load_cstr buf')
  end.

(** get_outfilename (mrbc.c 64-90) on the memory images of [infile] and
    [ext]; the result is the buffer handed back, [None] if a store would leave
    it.  [elen] is only read when [p] is not null, that is, after it was set. *)
Definition get_outfilename_mem (infile ext : list ascii) : option buffer :=
  let ilen := strlen infile in
  let flen := ilen in
  let '(p, ilen, flen, elen) :=
    if negb (is_nul (hd NUL ext)) then
      let elen := strlen ext in
      let p := strrchr infile "."%char in
      let ilen := match p with Some k => k | None => ilen end in
      (p, ilen, flen + elen, elen)
    else
      (None, ilen, ilen, 0)
  in
  let outfile := mrb_malloc (flen + 1) in
  match strncpy outfile 0 infile (ilen + 1) with
  | None => None
  | Some outfile =>
      match p with
      | Some _ => strncpy outfile ilen ext (elen + 1)
      | None => Some outfile
      end
  end.

(** The file name get_outfilename returns, read back as a C string. *)
Definition get_outfilename (infile ext : string) : option string :=
  match get_outfilename_mem (to_bytes infile) (to_bytes ext) with
  | Some buf => load_cstr buf
  | None => None
  end.

(** [l] holds no terminator. *)
Definition clean (l : list ascii) : Prop := forall c, In c l -> c <> NUL.

(** The character that starts a file name extension. *)
Definition dot : ascii := "."%char.

End CStr.

(** ** The driver *)

Module Mrbc.
Import CStr.

Local Open Scope string_scope.
Local Open Scope Z_scope.

(** *** Constants *)

Definition RITEBIN_EXT : string := ".mrb".
Definition C_EXT : string := ".c".
Definition C_HEAD_EXT : string := ".h".

Definition EXIT_SUCCESS : Z := 0.
Definition EXIT_FAILURE : Z := 1.

(** Modelled from the spec: the MRB_DUMP_* macros come from mruby/dump.h,
    which is not part of this file.  The spec lists five independent
    output-format flags (debug-info, static-storage, struct-form,
    header-emission, octal-encoding) kept in the 5-bit field [flags], so each
    is one bit of it; the status codes are ok (zero) and negative failure
    kinds. *)
Definition MRB_DUMP_DEBUG_INFO : Z := 1.
Definition MRB_DUMP_STATIC : Z := 2.
Definition MRB_DUMP_STRUCT : Z := 4.
Definition MRB_DUMP_HEADER : Z := 8.
Definition MRB_DUMP_OCTAL : Z := 16.

Definition MRB_DUMP_OK : Z := 0.
Definition MRB_DUMP_INVALID_ARGUMENT : Z := -6.

(** *** Pointers to C strings

    The driver compares pointers (a null test, and one [==] in dump_file), so
    a [char*] is modelled with its provenance: the block it points into, the
    offset in that block, and the string found there.  The blocks are the
    argument-vector elements, the string literals and the buffers from
    mrb_malloc; none is written after the driver first reads it. *)

Inductive block : Type :=
| BArgv (i : Z)
| BLit (s : string)
| BHeap (k : nat).

Record cptr : Type := CPtr { blk : block; off : nat; text : string }.

Definition block_eqb (a b : block) : bool :=
  match a, b with
  | BArgv i, BArgv j => Z.eqb i j
  | BLit s, BLit t => String.eqb s t
  | BHeap k, BHeap l => Nat.eqb k l
  | _, _ => false
  end.

(** [p == q] on pointers. *)
Definition ptr_eqb (p q : cptr) : bool :=
  block_eqb (blk p) (blk q) && Nat.eqb (off p) (off q).

(** A string literal used as a pointer. *)
Definition lit (s : string) : cptr := CPtr (BLit s) 0 s.

Fixpoint drop (k : nat) (s : string) : string :=
  match k, s with
  | O, _ => s
  | S k', String _ s' => drop k' s'
  | S _, EmptyString => EmptyString
  end.

(** [p + k]. *)
Definition ptr_add (p : cptr) (k : nat) : cptr :=
  CPtr (blk p) (off p + k) (drop k (text p)).

(** [p[k]]; the terminator at the end of the string. *)
Definition char_at (s : string) (k : nat) : ascii :=
  match String.get k s with
  | Some c => c
  | None => NUL
  end.

(** strrchr on a pointer: a pointer into the same block, or null. *)
Definition ptr_strrchr (p : cptr) (c : ascii) : option cptr :=
  match strrchr (to_bytes (text p)) c with
  | Some k => Some (ptr_add p k)
  | None => None
  end.

(** [strcmp(a, b) == 0]. *)
Definition streq (a b : string) : bool := String.eqb a b.

(** *** struct mrbc_args *)

Record mrbc_args : Type := MkArgs {
  prog : option cptr;
  outfile : option cptr;
  initname : option cptr;
  argv : list string;
  argc : Z;
  idx : Z;
  line_size : Z;
  check_syntax : bool;
  verbose : bool;
  remove_lv : bool;
  no_ext_ops : bool;
  no_optimize : bool;
  flags : Z
}.

Definition args_zero : mrbc_args :=
  MkArgs None None None [] 0 0 0 false false false false false 0.

Definition set_prog (a : mrbc_args) (v : option cptr) : mrbc_args :=
  MkArgs v (outfile a) (initname a) (argv a) (argc a) (idx a) (line_size a)
    (check_syntax a) (verbose a) (remove_lv a) (no_ext_ops a) (no_optimize a) (flags a).
Definition set_outfile (a : mrbc_args) (v : option cptr) : mrbc_args :=
  MkArgs (prog a) v (initname a) (argv a) (argc a) (idx a) (line_size a)
    (check_syntax a) (verbose a) (remove_lv a) (no_ext_ops a) (no_optimize a) (flags a).
Definition set_initname (a : mrbc_args) (v : option cptr) : mrbc_args :=
  MkArgs (prog a) (outfile a) v (argv a) (argc a) (idx a) (line_size a)
    (check_syntax a) (verbose a) (remove_lv a) (no_ext_ops a) (no_optimize a) (flags a).
Definition set_argv (a : mrbc_args) (v : list string) : mrbc_args :=
  MkArgs (prog a) (outfile a) (initname a) v (argc a) (idx a) (line_size a)
    (check_syntax a) (verbose a) (remove_lv a) (no_ext_ops a) (no_optimize a) (flags a).
Definition set_argc (a : mrbc_args) (v : Z) : mrbc_args :=
  MkArgs (prog a) (outfile a) (initname a) (argv a) v (idx a) (line_size a)
    (check_syntax a) (verbose a) (remove_lv a) (no_ext_ops a) (no_optimize a) (flags a).
Definition set_idx (a : mrbc_args) (v : Z) : mrbc_args :=
  MkArgs (prog a) (outfile a) (initname a) (argv a) (argc a) v (line_size a)
    (check_syntax a) (verbose a) (remove_lv a) (no_ext_ops a) (no_optimize a) (flags a).
(** [line_size] is an 8-bit field. *)
Definition set_line_size (a : mrbc_args) (v : Z) : mrbc_args :=
  MkArgs (prog a) (outfile a) (initname a) (argv a) (argc a) (idx a) (v mod 256)
    (check_syntax a) (verbose a) (remove_lv a) (no_ext_ops a) (no_optimize a) (flags a).
Definition set_check_syntax (a : mrbc_args) (v : bool) : mrbc_args :=
  MkArgs (prog a) (outfile a) (initname a) (argv a) (argc a) (idx a) (line_size a)
    v (verbose a) (remove_lv a) (no_ext_ops a) (no_optimize a) (flags a).
Definition set_verbose (a : mrbc_args) (v : bool) : mrbc_args :=
  MkArgs (prog a) (outfile a) (initname a) (argv a) (argc a) (idx a) (line_size a)
    (check_syntax a) v (remove_lv a) (no_ext_ops a) (no_optimize a) (flags a).
Definition set_remove_lv (a : mrbc_args) (v : bool) : mrbc_args :=
  MkArgs (prog a) (outfile a) (initname a) (argv a) (argc a) (idx a) (line_size a)
    (check_syntax a) (verbose a) v (no_ext_ops a) (no_optimize a) (flags a).
Definition set_no_ext_ops (a : mrbc_args) (v : bool) : mrbc_args :=
  MkArgs (prog a) (outfile a) (initname a) (argv a) (argc a) (idx a) (line_size a)
    (check_syntax a) (verbose a) (remove_lv a) v (no_optimize a) (flags a).
Definition set_no_optimize (a : mrbc_args) (v : bool) : mrbc_args :=
  MkArgs (prog a) (outfile a) (initname a) (argv a) (argc a) (idx a) (line_size a)
    (check_syntax a) (verbose a) (remove_lv a) (no_ext_ops a) v (flags a).
(** [args->flags |= bit]; [flags] is a 5-bit field. *)
Definition or_flags (a : mrbc_args) (bit : Z) : mrbc_args :=
  MkArgs (prog a) (outfile a) (initname a) (argv a) (argc a) (idx a) (line_size a)
    (check_syntax a) (verbose a) (remove_lv a) (no_ext_ops a) (no_optimize a)
    (Z.land (Z.lor (flags a) bit) 31).

(** [args->flags & bit] as a condition. *)
Definition has_flag (a : mrbc_args) (bit : Z) : bool :=
  negb (Z.land (flags a) bit =? 0).

(** [argv[i]], null at [argv[argc]]. *)
Definition argv_at (av : list string) (i : Z) : option string :=
  if i <? 0 then None else nth_error av (Z.to_nat i).

Definition argv_ptr (i : Z) (s : string) : cptr := CPtr (BArgv i) 0 s.

(** *** Effects: what a run does to the outside, and how it ends *)

Inductive stream : Type :=
| Stdin
| Stdout
| File (name : string).

(** A call of one of the four dump codecs, with the arguments the driver
    passes besides the compiled unit and the stream. *)
Inductive codec_call : Type :=
| Ccheader (fl : Z) (init : string)
| Ccstruct (fl : Z) (init : string)
| Ccvar (fl : Z) (init : string) (lsize : Z)
| Cbinary (fl : Z).

(** The diagnostics of the driver (each is prefixed by the program name);
    [MsgLineSize None] prints a line size that was never stored. *)
Inductive message : Type :=
| MsgOutfileAlready (o : string)
| MsgNoFunctionName
| MsgNoLongerNeeded
| MsgLineSize (v : option Z)
| MsgCannotOpenProgram (fn : string)
| MsgInvalidSymbol (init : string)
| MsgStaticRequiresB
| MsgDumpError (o : string) (n : Z)
| MsgInvalidState
| MsgNoProgramFile
| MsgMultipleNeedOutfile
| MsgCannotOpenOutput (o : string)
| MsgOutputRequired.

Inductive event : Type :=
| EvStderr (m : message)
| EvShowVersion
| EvShowCopyright
| EvUsage
| EvSyntaxOK (file : string)
| EvOpenRead (fn : string) (ok : bool)
| EvOpenWrite (fn : string) (ok : bool)
| EvClose (s : stream)
| EvMalloc (k : nat)
| EvFree (b : block)
| EvRemoveLv
| EvCodec (c : codec_call) (wfp : stream)
| EvCursor (i n : Z)
| EvMrbClose.

(** How a run ends: the process exits with a code; or it reads an
    uninitialised variable or a null pointer, after which C defines nothing;
    [OutOfFuel] is the bound of the model's loops (shown not to occur). *)
Inductive outcome : Type :=
| Exit (code : Z)
| Undefined
| OutOfFuel.

Record state : Type := MkState { trace : list event; nalloc : nat }.

Definition init_state : state := MkState [] 0.

Inductive res (A : Type) : Type :=
| Val (a : A)
| Halt (o : outcome).
Arguments Val {A} a.
Arguments Halt {A} o.

Definition M (A : Type) : Type := state -> res A * state.

Definition ret {A} (a : A) : M A := fun st => (Val a, st).

Definition bind {A B} (m : M A) (k : A -> M B) : M B :=
  fun st =>
    match m st with
    | (Val a, st') => k a st'
    | (Halt o, st') => (Halt o, st')
    end.

Definition halt {A} (o : outcome) : M A := fun st => (Halt o, st).

Definition emit (e : event) : M unit :=
  fun st => (Val tt, MkState (trace st ++ [e]) (nalloc st)).

Definition when (b : bool) (m : M unit) : M unit := if b then m else ret tt.

Declare Scope mrbc_scope.
Delimit Scope mrbc_scope with mrbc.
Notation "x <- m1 ;; m2" := (bind m1 (fun x => m2))
  (at level 61, m1 at next level, right associativity) : mrbc_scope.
Notation "' pat <- m1 ;; m2" := (bind m1 (fun x => match x with pat => m2 end))
  (at level 61, pat pattern, m1 at next level, right associativity) : mrbc_scope.
Notation "m1 ;; m2" := (bind m1 (fun _ => m2))
  (at level 61, right associativity) : mrbc_scope.
Local Open Scope mrbc_scope.

(** The outside of the driver: whether the interpreter state can be created,
    which files open for reading and for writing, whether the external
    compiler accepts the inputs it was fed, what status a codec reports, and
    the indeterminate contents of main's [args] before it is filled in. *)
Record world : Type := MkWorld {
  w_mrb_open : bool;
  w_readable : string -> bool;
  w_writable : string -> bool;
  w_compile : list string -> bool;
  w_codec : codec_call -> stream -> Z;
  w_stack_args : mrbc_args
}.

(** *** parse_args (mrbc.c 92-216) *)

Definition is_digit (c : ascii) : bool :=
  let n := nat_of_ascii c in ((48 <=? n) && (n <=? 57))%nat.

Fixpoint read_digits (s : string) (acc : Z) : option Z :=
  match s with
  | EmptyString => Some acc
  | String c s' =>
      if is_digit c
      then read_digits s' (10 * acc + Z.of_nat (nat_of_ascii c - 48))
      else None
  end.

(** Modelled from the spec: mrb_read_int belongs to the mruby core and is not
    part of this file; the spec has the value of line-size "parse as integer",
    an unparsable one being an error.  The model reads a non-empty run of
    decimal digits; anything else is not an integer.  (The value handed over
    by parse_args below is never a digit string, so only the failure of the
    read matters to it.) *)
Definition mrb_read_int (s : string) : option Z :=
  match s with
  | EmptyString => None
  | _ => read_digits s 0
  end.

(** What one turn of the for loop does: the switch is left by [break] and the
    loop goes on after index [i]; the loop is left by [break]; or the function
    returns. *)
Inductive piter : Type :=
| PNext (i : Z) (a : mrbc_args)
| PBreak (a : mrbc_args)
| PReturn (r : Z) (a : mrbc_args).

(** The value of an option that takes one ([-o], [-B]): the next element when
    nothing follows the letter and there is a next element, else what follows
    the letter. *)
Definition option_value (av : list string) (i : Z) (a : string) : Z * cptr :=
  match Ascii.eqb (char_at a 2) NUL, argv_at av (i + 1) with
  | true, Some nxt => (i + 1, argv_ptr (i + 1) nxt)
  | _, _ => (i, ptr_add (argv_ptr i a) 2)
  end.

(** The long options, [case '-'] of the switch. *)
Definition parse_long (av : list string) (i : Z) (a : string) (args : mrbc_args)
  : M piter :=
  if Ascii.eqb (char_at a 1) "010"%char then ret (PReturn i args)
  else if streq (drop 2 a) "version" then
    emit EvShowVersion ;; halt (Exit EXIT_SUCCESS)
  else if streq (drop 2 a) "verbose" then
    ret (PNext i (set_verbose args true))
  else if streq (drop 2 a) "copyright" then
    emit EvShowCopyright ;; halt (Exit EXIT_SUCCESS)
  else if streq (drop 2 a) "remove-lv" then
    ret (PNext i (set_remove_lv args true))
  else if streq (drop 2 a) "no-ext-ops" then
    ret (PNext i (set_no_ext_ops args true))
  else if streq (drop 2 a) "no-optimize" then
    ret (PNext i (set_no_optimize args true))
  else if streq (drop 2 a) "line-size" then
    let '(i, v) := option_value av i a in
    match mrb_read_int (text v) with
    | None => emit (EvStderr (MsgLineSize None)) ;; ret (PReturn (-1) args)
    | Some n =>
        if (n <? 1) || (n >? 255)
        then emit (EvStderr (MsgLineSize (Some n))) ;; ret (PReturn (-1) args)
        else ret (PNext i (set_line_size args n))
    end
  else ret (PReturn (-1) args).

(** The body of the for loop at index [i] (where [i < argc]). *)
Definition parse_arg (av : list string) (i : Z) (args : mrbc_args) : M piter :=
  match argv_at av i with
  | None => halt Undefined
  | Some a =>
      if Ascii.eqb (char_at a 0) "-"%char then
        let c := char_at a 1 in
        if Ascii.eqb c "o"%char then
          match outfile args with
          | Some o =>
              emit (EvStderr (MsgOutfileAlready (text o))) ;;
              ret (PReturn (-1) args)
          | None =>
              let '(i, v) := option_value av i a in
              ret (PNext i (set_outfile args (Some v)))
          end
        else if Ascii.eqb c "S"%char then
          ret (PNext i (or_flags args MRB_DUMP_STRUCT))
        else if Ascii.eqb c "B"%char then
          let '(i, v) := option_value av i a in
          let args := set_initname args (Some v) in
          if Ascii.eqb (char_at (text v) 0) NUL then
            emit (EvStderr MsgNoFunctionName) ;; ret (PReturn (-1) args)
          else ret (PNext i args)
        else if Ascii.eqb c "H"%char then
          ret (PNext i (or_flags args MRB_DUMP_HEADER))
        else if Ascii.eqb c "8"%char then
          ret (PNext i (or_flags args MRB_DUMP_OCTAL))
        else if Ascii.eqb c "c"%char then
          ret (PNext i (set_check_syntax args true))
        else if Ascii.eqb c "v"%char then
          when (negb (verbose args)) (emit EvShowVersion) ;;
          ret (PNext i (set_verbose args true))
        else if Ascii.eqb c "g"%char then
          ret (PNext i (or_flags args MRB_DUMP_DEBUG_INFO))
        else if Ascii.eqb c "s"%char then
          ret (PNext i (or_flags args MRB_DUMP_STATIC))
        else if Ascii.eqb c "E"%char || Ascii.eqb c "e"%char then
          emit (EvStderr MsgNoLongerNeeded) ;; ret (PNext i args)
        else if Ascii.eqb c "h"%char then
          ret (PReturn (-1) args)
        else if Ascii.eqb c "-"%char then
          parse_long av i a args
        else ret (PReturn i args)
      else ret (PBreak args)
  end.

(** [for (i = ...; i < argc; i++)] from index [i] on; every turn moves [i]
    forward, so [fuel] bounds the turns. *)
Fixpoint parse_loop (fuel : nat) (av : list string) (i : Z) (args : mrbc_args)
  : M (Z * mrbc_args) :=
  if i <? argc args then
    match fuel with
    | O => halt OutOfFuel
    | S fuel' =>
        r <- parse_arg av i args ;;
        match r with
        | PNext i' args' => parse_loop fuel' av (i' + 1) args'
        | PBreak args' => ret (i, args')
        | PReturn n args' => ret (n, args')
        end
    end
  else ret (i, args).

(** parse_args: [*args] is overwritten with zeroes whatever it held. *)
Definition parse_args (av : list string) (args : mrbc_args) : M (Z * mrbc_args) :=
  let args := args_zero in
  let args := set_argc args (Z.of_nat (length av)) in
  let args := set_argv args av in
  let args := set_prog args (option_map (argv_ptr 0) (argv_at av 0)) in
  parse_loop (length av) av 1 args.

(** *** get_outfilename as the driver calls it

    The buffer is a fresh block from mrb_malloc; a null [infile] cannot be
    measured by strlen. *)
Definition get_outfilename (infile : option cptr) (ext : cptr) : M cptr :=
  match infile with
  | None => halt Undefined
  | Some f =>
      match CStr.get_outfilename (text f) (text ext) with
      | None => halt Undefined
      | Some name =>
          fun st =>
            (Val (CPtr (BHeap (nalloc st)) 0 name),
             MkState (trace st ++ [EvMalloc (nalloc st)]) (S (nalloc st)))
      end
  end.

(** *** partial_hook (mrbc.c 218-238) *)

(** The part of mrb_parser_state the hook touches: the current input stream
    [p->f], and the file names given to the parser so far. *)
Record parser_state : Type := MkParser { pf : option stream; fed : list string }.

Definition partial_hook (w : world) (args : mrbc_args) (p : parser_state)
  : M (Z * mrbc_args * parser_state) :=
  match pf p with Some f => emit (EvClose f) | None => ret tt end ;;
  if idx args >=? argc args then
    ret (-1, args, MkParser None (fed p))
  else
    match argv_at (argv args) (idx args) with
    | None => halt Undefined
    | Some fn =>
        let args := set_idx args (idx args + 1) in
        emit (EvCursor (idx args) (argc args)) ;;
        emit (EvOpenRead fn (w_readable w fn)) ;;
        if w_readable w fn then
          ret (0, args, MkParser (Some (File fn)) (fed p ++ [fn]))
        else
          emit (EvStderr (MsgCannotOpenProgram fn)) ;;
          ret (-1, args, MkParser None (fed p))
    end.

(** Modelled from the spec: mrb_load_file_cxt, the external parser and
    compiler, is not part of this file.  By the spec it reads the stream it is
    given and, when a continuation hook is installed, calls the hook each time
    the current stream is exhausted, until the hook signals the end of input;
    its result is the compiled unit, or the undefined value when the inputs do
    not compile.  [fuel] bounds the calls of the hook. *)
Fixpoint parser_chain (fuel : nat) (w : world) (args : mrbc_args) (p : parser_state)
  : M (mrbc_args * parser_state) :=
  match fuel with
  | O => halt OutOfFuel
  | S fuel' =>
      '(r, args, p) <- partial_hook w args p ;;
      if r <? 0 then ret (args, p) else parser_chain fuel' w args p
  end.

Definition mrb_load_file_cxt (w : world) (hook : bool) (infile : stream)
    (name : string) (args : mrbc_args) : M (bool * mrbc_args) :=
  let p := MkParser (Some infile) [name] in
  if hook then
    '(args, p) <- parser_chain (S (Z.to_nat (argc args - idx args))) w args p ;;
    ret (w_compile w (fed p), args)
  else ret (w_compile w (fed p), args).

(** *** load_file (mrbc.c 240-279)

    The result is [true] for a compiled unit and [false] for nil.  The
    context settings (dump_result, no_exec, no_ext_ops, no_optimize) go to the
    external compiler only, whose verdict is [w_compile]. *)
Definition load_file (w : world) (args : mrbc_args) : M (bool * mrbc_args) :=
  match argv_at (argv args) (idx args) with
  | None => halt Undefined
  | Some input =>
      let use_stdin :=
        Ascii.eqb (char_at input 0) "-"%char && Ascii.eqb (char_at input 1) NUL in
      opened <-
        (if use_stdin then ret (Some (Stdin, false))
         else
           emit (EvOpenRead input (w_readable w input)) ;;
           if w_readable w input then ret (Some (File input, true))
           else emit (EvStderr (MsgCannotOpenProgram input)) ;; ret None) ;;
      match opened with
      | None => ret (false, args)
      | Some (infile, need_close) =>
          let args := set_idx args (idx args + 1) in
          emit (EvCursor (idx args) (argc args)) ;;
          let hook := idx args <? argc args in
          let need_close := if hook then false else need_close in
          '(result, args) <- mrb_load_file_cxt w hook infile input args ;;
          when need_close (emit (EvClose infile)) ;;
          ret (result, args)
      end
  end.

(** *** dump_file (mrbc.c 281-318) *)

Definition codec (w : world) (c : codec_call) (wfp : stream) : M Z :=
  emit (EvCodec c wfp) ;; ret (w_codec w c wfp).

Definition dump_file (w : world) (wfp : stream) (outfile : cptr) (args : mrbc_args)
  : M Z :=
  let file_ext := ptr_strrchr outfile "."%char in
  when (remove_lv args) (emit EvRemoveLv) ;;
  match initname args with
  | Some init =>
      n <- (if match file_ext with
               | Some e => ptr_eqb e (lit C_HEAD_EXT)
               | None => false
               end
            then codec w (Ccheader (flags args) (text init)) wfp
            else if has_flag args MRB_DUMP_STRUCT
            then codec w (Ccstruct (flags args) (text init)) wfp
            else codec w (Ccvar (flags args) (text init) (line_size args)) wfp) ;;
      when (n =? MRB_DUMP_INVALID_ARGUMENT)
           (emit (EvStderr (MsgInvalidSymbol (text init)))) ;;
      when (negb (n =? MRB_DUMP_OK))
           (emit (EvStderr (MsgDumpError (text outfile) n))) ;;
      ret n
  | None =>
      if has_flag args MRB_DUMP_STATIC then
        emit (EvStderr MsgStaticRequiresB) ;; ret MRB_DUMP_INVALID_ARGUMENT
      else
        n <- codec w (Cbinary (flags args)) wfp ;;
        when (negb (n =? MRB_DUMP_OK))
             (emit (EvStderr (MsgDumpError (text outfile) n))) ;;
        ret n
  end.

(** *** main (mrbc.c 320-415) *)

(** Reading the local [outfilename], which is uninitialised until line 348
    assigns it. *)
Definition read_var (v : option cptr) : M cptr :=
  match v with
  | Some p => ret p
  | None => halt Undefined
  end.

(** Lines 346-354: the output name derived from the single input.  Line 348
    passes [args.outfile ? args.outfile, argv[n]] for the input name, a
    conditional without its colon; it is read as choosing [args.outfile] when
    set and [argv[n]] otherwise.  The test of line 346 has [args.outfile] null
    here, so the name is derived from [argv[n]]. *)
Definition main_derive (av : list string) (n : Z) (args : mrbc_args)
  : M (option cptr) :=
  if match outfile args with None => true | Some _ => false end
     && negb (check_syntax args)
  then
    if n + 1 =? argc args then
      let infile :=
        match outfile args with
        | Some o => Some o
        | None => option_map (argv_ptr n) (argv_at av n)
        end in
      f <- get_outfilename infile
             (lit (match initname args with Some _ => C_EXT | None => RITEBIN_EXT end)) ;;
      ret (Some f)
    else
      emit (EvStderr MsgMultipleNeedOutfile) ;; halt (Exit EXIT_FAILURE)
  else ret None.

(** Lines 368-388: the bytecode/C file dump. *)
Definition main_primary (w : world) (args : mrbc_args) (outfilename : option cptr)
  : M unit :=
  wfp <-
    match outfile args with
    | Some o =>
        if streq "-" (text o) then ret Stdout
        else
          f <- read_var outfilename ;;
          emit (EvOpenWrite (text f) (w_writable w (text f))) ;;
          if w_writable w (text f) then ret (File (text f))
          else
            emit (EvStderr (MsgCannotOpenOutput (text f))) ;;
            halt (Exit EXIT_FAILURE)
    | None =>
        emit (EvStderr MsgOutputRequired) ;; halt (Exit EXIT_FAILURE)
    end ;;
  f <- read_var outfilename ;;
  result <- dump_file w wfp f args ;;
  emit (EvClose wfp) ;;
  emit (EvFree (blk f)) ;;
  if negb (result =? MRB_DUMP_OK) then
    emit EvMrbClose ;; halt (Exit EXIT_FAILURE)
  else ret tt.

(** Lines 390-412: the C header file dump.  The [else] of line 401 belongs to
    the [if] that opens the file: it is taken when the file was opened. *)
Definition main_header (w : world) (args : mrbc_args) : M unit :=
  if has_flag args MRB_DUMP_HEADER then
    f <- get_outfilename (outfile args) (lit C_HEAD_EXT) ;;
    o <- read_var (outfile args) ;;
    wfp <-
      (if streq "-" (text o) then ret Stdout
       else
         emit (EvOpenWrite (text f) (w_writable w (text f))) ;;
         if negb (w_writable w (text f)) then
           emit (EvStderr (MsgCannotOpenOutput (text f))) ;;
           halt (Exit EXIT_FAILURE)
         else
           emit (EvStderr MsgOutputRequired) ;; halt (Exit EXIT_FAILURE)) ;;
    result <- dump_file w wfp f args ;;
    emit (EvClose wfp) ;;
    emit (EvFree (blk f)) ;;
    if negb (result =? MRB_DUMP_OK) then
      emit EvMrbClose ;; halt (Exit EXIT_FAILURE)
    else ret tt
  else ret tt.

Definition main (w : world) (av : list string) : M Z :=
  if negb (w_mrb_open w) then
    emit (EvStderr MsgInvalidState) ;; halt (Exit EXIT_FAILURE)
  else
    let args := set_line_size (w_stack_args w) 16 in
    '(n, args) <- parse_args av args ;;
    let argc := Z.of_nat (length av) in
    if n <? 0 then
      emit EvMrbClose ;; emit EvUsage ;; halt (Exit EXIT_FAILURE)
    else if n =? argc then
      emit (EvStderr MsgNoProgramFile) ;; halt (Exit EXIT_FAILURE)
    else
      outfilename <- main_derive av n args ;;
      let args := set_idx args n in
      emit (EvCursor (idx args) (Mrbc.argc args)) ;;
      '(load, args) <- load_file w args ;;
      if negb load then
        emit EvMrbClose ;; halt (Exit EXIT_FAILURE)
      else if check_syntax args then
        emit (EvSyntaxOK (match argv_at av n with Some a => a | None => EmptyString end)) ;;
        emit EvMrbClose ;;
        ret EXIT_SUCCESS
      else
        main_primary w args outfilename ;;
        main_header w args ;;
        emit EvMrbClose ;;
        ret EXIT_SUCCESS.

(** A whole run: how the process ends and what it did. *)
Definition run (w : world) (av : list string) : outcome * list event :=
  match main w av init_state with
  | (Val code, st) => (Exit code, trace st)
  | (Halt o, st) => (o, trace st)
  end.

(** The events of a run that open a file for writing, and those that call a
    codec. *)
Definition is_open_write (e : event) : bool :=
  match e with EvOpenWrite _ _ => true | _ => false end.

Definition is_codec (e : event) : bool :=
  match e with EvCodec _ _ => true | _ => false end.

(** A world in which everything outside the driver succeeds. *)
Definition fair_world : world :=
  MkWorld true (fun _ => true) (fun _ => true) (fun _ => true)
    (fun _ _ => MRB_DUMP_OK) args_zero.

End Mrbc.

(** ** Vocabulary of the properties *)

Import CStr.
Import Mrbc.

Section Vocabulary.

Local Open Scope Z_scope.

(** [sound phi m Q E]: from any state, [m] only appends events satisfying
    [phi] to the trace, a value it returns satisfies [Q], and an outcome it
    halts with satisfies [E]. *)
Definition sound {A : Type} (phi : event -> Prop) (m : M A)
    (Q : A -> Prop) (E : outcome -> Prop) : Prop :=
  forall st,
    (exists d, trace (snd (m st)) = trace st ++ d /\ Forall phi d) /\
    match fst (m st) with
    | Val a => Q a
    | Halt o => E o
    end.

(** The diagnostics: what option parsing may print. *)
Definition is_diag (e : event) : Prop :=
  match e with
  | EvStderr _ | EvShowVersion | EvShowCopyright => True
  | _ => False
  end.

(** The fields option parsing leaves alone once they are set up. *)
Definition same_frame (a0 a : mrbc_args) : Prop :=
  argc a = argc a0 /\ argv a = argv a0 /\ idx a = idx a0 /\
  line_size a = line_size a0.

(** What one turn of the parsing loop at index [i] leaves. *)
Definition piter_ok (av : list string) (i : Z) (a0 : mrbc_args) (r : piter) : Prop :=
  match r with
  | PNext i' a => same_frame a0 a /\ i <= i' < Z.of_nat (length av)
  | PBreak a => same_frame a0 a
  | PReturn n a => same_frame a0 a /\ (n = -1 \/ n = i)
  end.

(** The outcome is not the exhaustion of the fuel of the model. *)
Definition not_fuel (o : outcome) : Prop := o <> OutOfFuel.

(** The result of the loop started at [i]: the frame is kept, and the value
    returned is the failure sentinel or an index from [i] up to the count (or
    [i] itself when the loop is entered past the count). *)
Definition loop_ok (av : list string) (i : Z) (a0 : mrbc_args)
    (r : Z * mrbc_args) : Prop :=
  same_frame a0 (snd r) /\
  (fst r = -1 \/ i <= fst r <= Z.of_nat (length av) \/
   (Z.of_nat (length av) <= i /\ r = (i, a0))).

(** [*args] as parse_args sets it up before the loop. *)
Definition args_start (av : list string) : mrbc_args :=
  set_prog (set_argv (set_argc args_zero (Z.of_nat (length av))) av)
    (option_map (argv_ptr 0) (argv_at av 0)).

(** What parse_args hands back: the cursor and the line size are zero, the
    count and the vector are those of the invocation, and the value returned
    is the failure sentinel or an index from 1 up to the count; for an empty
    vector it is 1, with nothing parsed. *)
Definition parsed_ok (av : list string) (r : Z * mrbc_args) : Prop :=
  argc (snd r) = Z.of_nat (length av) /\ argv (snd r) = av /\
  idx (snd r) = 0 /\ line_size (snd r) = 0 /\
  (fst r = -1 \/ 1 <= fst r <= Z.of_nat (length av) \/
   (Z.of_nat (length av) <= 1 /\ r = (1, args_start av))).







(** The short options that take no value. *)
Definition no_value_flag (c : ascii) : bool :=
  existsb (Ascii.eqb c) ["S"; "H"; "8"; "c"; "v"; "g"; "s"; "E"; "e"; "h"]%char.

(** The codec dump_file calls for an embed symbol when the extension pointer
    is not the literal. *)
Definition c_codec (args : mrbc_args) (init : cptr) : codec_call :=
  if has_flag args MRB_DUMP_STRUCT
  then Ccstruct (flags args) (text init)
  else Ccvar (flags args) (text init) (line_size args).

(** The diagnostics dump_file prints for the status [n] of a C codec. *)
Definition dump_messages (f init : cptr) (n : Z) : list event :=
  (if n =? MRB_DUMP_INVALID_ARGUMENT
   then [EvStderr (MsgInvalidSymbol (text init))] else []) ++
  (if negb (n =? MRB_DUMP_OK)
   then [EvStderr (MsgDumpError (text f) n)] else []).

End Vocabulary.

(** ** Vocabulary of the further properties *)

Section FurtherVocabulary.

Local Open Scope Z_scope.

(** The letters the switch of parse_args has a case for. *)
Definition option_letters : list ascii :=
  ["o"; "S"; "B"; "H"; "8"; "c"; "v"; "g"; "s"; "E"; "e"; "h"; "-"]%char.

(** An element the switch of parse_args has a case for: a dash followed by
    one of its letters. *)
Definition is_option (a : string) : bool :=
  Ascii.eqb (char_at a 0) "-"%char &&
  existsb (Ascii.eqb (char_at a 1)) option_letters.

(** The element at index [n], if there is one, is not an option. *)
Definition boundary (av : list string) (n : Z) : Prop :=
  match argv_at av n with
  | Some x => is_option x = false
  | None => True
  end.

(** The symbol name, when set, is not the empty string. *)
Definition initname_ok (a : mrbc_args) : Prop :=
  match initname a with
  | Some v => char_at (text v) 0 <> NUL
  | None => True
  end.

(** The output-format flag a short option letter stands for. *)
Definition flag_of_letter (c : ascii) : option Z :=
  if Ascii.eqb c "S"%char then Some MRB_DUMP_STRUCT
  else if Ascii.eqb c "H"%char then Some MRB_DUMP_HEADER
  else if Ascii.eqb c "8"%char then Some MRB_DUMP_OCTAL
  else if Ascii.eqb c "g"%char then Some MRB_DUMP_DEBUG_INFO
  else if Ascii.eqb c "s"%char then Some MRB_DUMP_STATIC
  else None.





(** The events of the loader: opening and closing inputs, moving the cursor,
    diagnostics. *)
Definition is_loader_event (e : event) : Prop :=
  match e with
  | EvOpenRead _ _ | EvClose _ | EvCursor _ _ | EvStderr _ => True
  | _ => False
  end.


(** A diagnostic on the error stream. *)
Definition is_stderr (e : event) : bool :=
  match e with EvStderr _ => true | _ => false end.









End FurtherVocabulary.

(** * Properties *)

(** ** The C string primitives *)

Section CStrFacts.

Lemma is_nul_false {c : ascii} : c <> NUL -> is_nul c = false.
Proof. intro H. unfold is_nul. now apply Ascii.eqb_neq. Qed.

Lemma is_nul_NUL : is_nul NUL = true.
Proof. reflexivity. Qed.

Lemma bytes_app (a b : string) :
  list_ascii_of_string (a ++ b)%string
  = list_ascii_of_string a ++ list_ascii_of_string b.
Proof. induction a as [|c a IH]; simpl; [reflexivity | now rewrite IH]. Qed.

Lemma string_of_bytes_app (l1 l2 : list ascii) :
  string_of_list_ascii (l1 ++ l2)
  = (string_of_list_ascii l1 ++ string_of_list_ascii l2)%string.
Proof. induction l1 as [|c l1 IH]; simpl; [reflexivity | now rewrite IH]. Qed.

Lemma clean_cons c l : clean (c :: l) -> c <> NUL /\ clean l.
Proof. intro H; split; [apply H; now left | intros d Hd; apply H; now right]. Qed.

Lemma clean_app l1 l2 : clean (l1 ++ l2) -> clean l1 /\ clean l2.
Proof. intro H; split; intros c Hc; apply H, in_or_app; auto. Qed.

Lemma strlen_clean (l rest : list ascii) :
  clean l -> strlen (l ++ NUL :: rest) = length l.
Proof.
  induction l as [|c l IH]; intro Hl; simpl.
  - reflexivity.
  - apply clean_cons in Hl as [Hc Hl]. rewrite (is_nul_false Hc). now rewrite IH.
Qed.

Lemma strrchr_absent (l rest : list ascii) (ch : ascii) :
  clean l -> existsb (Ascii.eqb ch) l = false ->
  strrchr (l ++ NUL :: rest) ch = None.
Proof.
  induction l as [|c l IH]; simpl; intros Hl Hch.
  - reflexivity.
  - apply clean_cons in Hl as [Hc Hl]. rewrite (is_nul_false Hc).
    apply orb_false_elim in Hch as [Hc' Hch]. rewrite (IH Hl Hch).
    rewrite Ascii.eqb_sym. now rewrite Hc'.
Qed.

Lemma strrchr_last (pre post rest : list ascii) (ch : ascii) :
  ch <> NUL -> clean pre -> clean post -> existsb (Ascii.eqb ch) post = false ->
  strrchr (pre ++ ch :: post ++ NUL :: rest) ch = Some (length pre).
Proof.
  intros Hch Hpre Hpost Habs.
  induction pre as [|c pre IH]; simpl.
  - rewrite (is_nul_false Hch), (strrchr_absent post rest ch Hpost Habs).
    now rewrite Ascii.eqb_refl.
  - apply clean_cons in Hpre as [Hc Hpre]. rewrite (is_nul_false Hc).
    now rewrite (IH Hpre).
Qed.

(** strncpy of a count that stops inside the source copies just that many of
    its bytes and stores no terminator. *)
Lemma strncpy_bytes_inside (l rest : list ascii) :
  clean l -> strncpy_bytes (l ++ rest) (length l) = l.
Proof.
  induction l as [|c l IH]; intro Hl; simpl.
  - reflexivity.
  - apply clean_cons in Hl as [Hc Hl]. rewrite (is_nul_false Hc). now rewrite IH.
Qed.

(** strncpy of the length plus one copies the string and its terminator. *)
Lemma strncpy_bytes_whole (l : list ascii) :
  clean l -> strncpy_bytes (l ++ [NUL]) (length l + 1) = (l ++ [NUL]).
Proof.
  induction l as [|c l IH]; intro Hl; simpl.
  - reflexivity.
  - apply clean_cons in Hl as [Hc Hl]. rewrite (is_nul_false Hc).
    now rewrite IH.
Qed.

Lemma load_cstr_clean (l : list ascii) (rest : buffer) :
  clean l ->
  load_cstr (map Some l ++ Some NUL :: rest) = Some (string_of_list_ascii l).
Proof.
  induction l as [|c l IH]; intro Hl; simpl.
  - reflexivity.
  - apply clean_cons in Hl as [Hc Hl]. rewrite (is_nul_false Hc).
    now rewrite (IH Hl).
Qed.

Lemma store_at_start (n : nat) (bytes : list ascii) :
  (length bytes <= n)%nat ->
  store (mrb_malloc n) 0 bytes
  = Some (map Some bytes ++ repeat None (n - length bytes)).
Proof.
  intro Hle. unfold store, mrb_malloc. rewrite repeat_length. simpl.
  destruct (Nat.leb_spec (length bytes) n) as [_|Hgt]; [|lia].
  f_equal. f_equal.
  replace n with (length bytes + (n - length bytes))%nat at 1 by lia.
  rewrite repeat_app, skipn_app, repeat_length, Nat.sub_diag. simpl.
  rewrite skipn_all2; [reflexivity | rewrite repeat_length; lia].
Qed.

Lemma store_after (pre bytes : list ascii) (tl : buffer) :
  (length bytes <= length tl)%nat ->
  store (map Some pre ++ tl) (length pre) bytes
  = Some (map Some pre ++ map Some bytes ++ skipn (length bytes) tl).
Proof.
  intro Hle. unfold store. rewrite length_app, length_map.
  destruct (Nat.leb_spec (length pre + length bytes) (length pre + length tl))
    as [_|Hgt]; [|lia].
  f_equal.
  rewrite firstn_app, length_map, Nat.sub_diag. simpl.
  rewrite firstn_all2 by (rewrite length_map; lia).
  rewrite app_nil_r. f_equal. f_equal.
  rewrite skipn_app, length_map.
  rewrite skipn_all2 by (rewrite length_map; lia). simpl.
  f_equal. lia.
Qed.

End CStrFacts.

(** ** get_outfilename *)

Section Deriver.

Lemma dot_not_nul : dot <> NUL.
Proof. discriminate. Qed.

Lemma ext_test (le : list ascii) :
  clean le -> negb (is_nul (hd NUL (le ++ [NUL]))) = negb (match le with [] => true | _ => false end).
Proof.
  destruct le as [|c le]; intro H; simpl; [reflexivity|].
  apply clean_cons in H as [Hc _]. now rewrite (is_nul_false Hc).
Qed.

(** Without a dot in the input, or with an empty extension, the buffer holds
    the input and its terminator. *)
Lemma get_outfilename_mem_plain (li le : list ascii) :
  clean li -> clean le ->
  le = [] \/ existsb (Ascii.eqb dot) li = false ->
  exists rest,
    get_outfilename_mem (li ++ [NUL]) (le ++ [NUL])
    = Some (map Some li ++ Some NUL :: rest).
Proof.
  intros Hli Hle Hcase. unfold get_outfilename_mem.
  rewrite (ext_test le Hle), !strlen_clean by assumption.
  assert (Hcpy : forall n, (length li + 1 <= n)%nat ->
            strncpy (mrb_malloc n) 0 (li ++ [NUL]) (length li + 1)
            = Some (map Some li ++ Some NUL :: repeat None (n - (length li + 1)))).
  { intros n Hn. unfold strncpy. rewrite (strncpy_bytes_whole li Hli).
    rewrite store_at_start by (rewrite length_app; simpl; lia).
    rewrite map_app, <- app_assoc, length_app. reflexivity. }
  destruct le as [|c le]; simpl negb; cbv iota.
  - rewrite Hcpy by lia. eexists; reflexivity.
  - destruct Hcase as [Hnil | Hnodot]; [discriminate|].
    fold dot. rewrite (strrchr_absent li [] dot Hli Hnodot).
    rewrite Hcpy by lia. eexists; reflexivity.
Qed.

(** With a dot in the input and an extension, the buffer holds the text
    before the last dot, then the extension and its terminator. *)
Lemma get_outfilename_mem_dot (lpre lpost le : list ascii) :
  clean lpre -> clean lpost -> clean le -> le <> [] ->
  existsb (Ascii.eqb dot) lpost = false ->
  exists rest,
    get_outfilename_mem ((lpre ++ dot :: lpost) ++ [NUL]) (le ++ [NUL])
    = Some (map Some (lpre ++ le) ++ Some NUL :: rest).
Proof.
  intros Hpre Hpost Hle Hne Hnodot. unfold get_outfilename_mem.
  assert (Hli : clean (lpre ++ dot :: lpost)).
  { intros c Hc. apply in_app_or in Hc as [Hc | [Hc | Hc]]; auto.
    subst c. apply dot_not_nul. }
  rewrite (ext_test le Hle), !strlen_clean by assumption.
  destruct le as [|c le]; [congruence|]. simpl negb; cbv iota.
  fold dot.
  replace ((lpre ++ dot :: lpost) ++ [NUL]) with (lpre ++ dot :: lpost ++ [NUL])
    by (now rewrite <- app_assoc).
  rewrite (strrchr_last lpre lpost [] dot dot_not_nul Hpre Hpost Hnodot).
  set (e := c :: le) in *.
  unfold strncpy.
  replace (lpre ++ dot :: lpost ++ [NUL]) with ((lpre ++ [dot]) ++ lpost ++ [NUL])
    by (now rewrite <- app_assoc).
  replace (length lpre + 1)%nat with (length (lpre ++ [dot]))
    by (rewrite length_app; reflexivity).
  assert (Hpd : clean (lpre ++ [dot])).
  { intros d Hd. apply in_app_or in Hd as [Hd | [Hd | []]]; auto.
    subst d. apply dot_not_nul. }
  rewrite (strncpy_bytes_inside (lpre ++ [dot]) (lpost ++ [NUL]) Hpd).
  rewrite store_at_start by (rewrite !length_app; simpl; lia).
  rewrite (strncpy_bytes_whole e Hle).
  rewrite (map_app Some lpre), <- app_assoc.
  rewrite store_after
    by (simpl; rewrite ?length_app, ?repeat_length, ?length_app; simpl; lia).
  eexists. f_equal. rewrite !map_app, <- !app_assoc. simpl. reflexivity.
Qed.

End Deriver.

Section DeriverSpec.

Local Open Scope string_scope.

Lemma nul_free_clean (s : string) :
  nul_free s = true -> clean (list_ascii_of_string s).
Proof.
  unfold nul_free, has_char. intros H c Hc Heq. subst c.
  apply negb_true_iff in H.
  assert (existsb (Ascii.eqb NUL) (list_ascii_of_string s) = true) as Hex.
  { apply existsb_exists. exists NUL. split; [assumption | apply Ascii.eqb_refl]. }
  congruence.
Qed.

Lemma get_outfilename_plain (infile ext : string) :
  nul_free infile = true -> nul_free ext = true ->
  has_char "." infile = false \/ ext = EmptyString ->
  CStr.get_outfilename infile ext = Some infile.
Proof.
  intros Hi He Hcase. unfold CStr.get_outfilename, to_bytes.
  destruct (get_outfilename_mem_plain (list_ascii_of_string infile)
              (list_ascii_of_string ext)) as [rest Hmem].
  - now apply nul_free_clean.
  - now apply nul_free_clean.
  - destruct Hcase as [Hnodot | Hext]; [now right | left; now subst ext].
  - rewrite Hmem, load_cstr_clean by now apply nul_free_clean.
    now rewrite string_of_list_ascii_of_string.
Qed.

Lemma get_outfilename_dot (pre post ext : string) :
  nul_free (pre ++ "." ++ post) = true -> nul_free ext = true ->
  has_char "." post = false -> ext <> EmptyString ->
  CStr.get_outfilename (pre ++ "." ++ post) ext = Some (pre ++ ext).
Proof.
  intros Hi He Hnodot Hne. unfold CStr.get_outfilename, to_bytes.
  apply nul_free_clean in Hi, He.
  rewrite bytes_app in Hi |- *. simpl in Hi |- *.
  apply clean_app in Hi as [Hpre Hpost]. apply clean_cons in Hpost as [_ Hpost].
  destruct (get_outfilename_mem_dot (list_ascii_of_string pre)
              (list_ascii_of_string post) (list_ascii_of_string ext))
    as [rest Hmem]; try assumption.
  - destruct ext; [congruence | discriminate].
  - unfold dot in Hmem. rewrite Hmem, load_cstr_clean.
    + now rewrite string_of_bytes_app, !string_of_list_ascii_of_string.
    + intros c Hc. apply in_app_or in Hc as [Hc | Hc]; auto.
Qed.

End DeriverSpec.

(** C8. For every input file name and extension (C strings), get_outfilename
    returns the input unchanged when the input has no '.' or the extension is
    empty, and the text before the last '.' followed by the extension when
    the input has a '.' and the extension is not empty. *)
Theorem get_outfilename_spec (infile ext : string) :
  nul_free infile = true -> nul_free ext = true ->
  (has_char "." infile = false \/ ext = EmptyString ->
   CStr.get_outfilename infile ext = Some infile) /\
  (forall pre post : string,
     infile = (pre ++ "." ++ post)%string ->
     has_char "." post = false -> ext <> EmptyString ->
     CStr.get_outfilename infile ext = Some (pre ++ ext)%string).
Proof.
  intros Hi He. split.
  - now apply get_outfilename_plain.
  - intros pre post -> Hnodot Hne. now apply get_outfilename_dot.
Qed.

Lemma get_outfilename_spec_witness :
  CStr.get_outfilename "Makefile" ".mrb" = Some "Makefile"%string /\
  CStr.get_outfilename "lib.d/app.test.rb" ".c" = Some "lib.d/app.test.c"%string.
Proof.
  split.
  - apply (get_outfilename_spec "Makefile" ".mrb"); try reflexivity.
    left; reflexivity.
  - apply (proj2 (get_outfilename_spec "lib.d/app.test.rb" ".c" eq_refl eq_refl)
             "lib.d/app.test"%string "rb"%string);
      [reflexivity | reflexivity | discriminate].
Defined.

(** ** A logic for runs of the driver *)

Local Open Scope Z_scope.
Local Open Scope mrbc_scope.

Section Logic.

Context {A B : Type}.
Variable phi : event -> Prop.

Lemma sound_ret (a : A) (Q : A -> Prop) E : Q a -> sound phi (ret a) Q E.
Proof.
  intros H st. simpl. split; [|assumption].
  exists []. now rewrite app_nil_r.
Qed.

Lemma sound_halt (o : outcome) (Q : A -> Prop) (E : outcome -> Prop) :
  E o -> sound phi (halt o) Q E.
Proof.
  intros H st. simpl. split; [|assumption].
  exists []. now rewrite app_nil_r.
Qed.

Lemma sound_bind (m : M A) (k : A -> M B) Q1 (Q : B -> Prop) E :
  sound phi m Q1 E ->
  (forall a, Q1 a -> sound phi (k a) Q E) ->
  sound phi (bind m k) Q E.
Proof.
  intros Hm Hk st. unfold bind.
  destruct (Hm st) as [[d [Hd Hphi]] Hr].
  destruct (m st) as [[a|o] st1]; simpl in *.
  - destruct (Hk a Hr st1) as [[d' [Hd' Hphi']] Hr'].
    split; [|assumption].
    exists (d ++ d'). rewrite Hd', Hd, app_assoc. split; [reflexivity|].
    apply Forall_app; now split.
  - split; [|assumption]. now exists d.
Qed.

Lemma sound_weaken (psi : event -> Prop) (m : M A) (Q Q' : A -> Prop)
    (E E' : outcome -> Prop) :
  sound psi m Q E ->
  (forall e, psi e -> phi e) -> (forall a, Q a -> Q' a) -> (forall o, E o -> E' o) ->
  sound phi m Q' E'.
Proof.
  intros Hm Hphi HQ HE st. destruct (Hm st) as [[d [Hd Hf]] Hr]. split.
  - exists d. split; [assumption|]. eapply Forall_impl; eauto.
  - destruct (fst (m st)); auto.
Qed.

End Logic.

Lemma sound_emit (phi : event -> Prop) (e : event) (Q : unit -> Prop) E :
  phi e -> Q tt -> sound phi (emit e) Q E.
Proof.
  intros He HQ st. simpl. split; [|assumption].
  exists [e]. split; [reflexivity | now constructor].
Qed.

Lemma sound_when (phi : event -> Prop) (b : bool) (m : M unit) (Q : unit -> Prop) E :
  (b = true -> sound phi m Q E) -> Q tt -> sound phi (when b m) Q E.
Proof.
  intros Hm HQ. destruct b; simpl; [now apply Hm | now apply sound_ret].
Qed.

(** [emit e ;; k]. *)
Lemma sound_emit_then {B : Type} (phi : event -> Prop) (e : event) (k : M B) Q E :
  phi e -> sound phi k Q E -> sound phi (emit e ;; k) Q E.
Proof.
  intros He Hk. apply sound_bind with (Q1 := fun _ => True).
  - now apply sound_emit.
  - intros _ _. exact Hk.
Qed.

(** ** parse_args *)

Section ParseFacts.

Lemma same_frame_refl a : same_frame a a.
Proof. repeat split. Qed.

Lemma same_frame_trans a b c : same_frame a b -> same_frame b c -> same_frame a c.
Proof. unfold same_frame. intuition congruence. Qed.

Lemma argv_at_bound (av : list string) (i : Z) (a : string) :
  argv_at av i = Some a -> 0 <= i < Z.of_nat (length av).
Proof.
  unfold argv_at. destruct (Z.ltb_spec i 0) as [Hneg|Hpos]; [discriminate|].
  intro Hnth. assert (nth_error av (Z.to_nat i) <> None) as Hn by congruence.
  apply nth_error_Some in Hn. lia.
Qed.

Lemma option_value_bound (av : list string) (i : Z) (a : string) :
  0 <= i < Z.of_nat (length av) ->
  i <= fst (option_value av i a) < Z.of_nat (length av).
Proof.
  intro Hi. unfold option_value.
  destruct (Ascii.eqb (char_at a 2) NUL); [|simpl; lia].
  destruct (argv_at av (i + 1)) eqn:Hn; [|simpl; lia].
  apply argv_at_bound in Hn. simpl. lia.
Qed.

(** An element that is exactly [--line-size] hands the text after the two
    dashes to mrb_read_int. *)
Lemma line_size_value (av : list string) (i : Z) (a : string) :
  streq (drop 2 a) "line-size" = true ->
  option_value av i a = (i, ptr_add (argv_ptr i a) 2) /\
  mrb_read_int (text (ptr_add (argv_ptr i a) 2)) = None.
Proof.
  unfold streq. intro H. apply String.eqb_eq in H.
  destruct a as [|c0 [|c1 r]]; simpl in H; try discriminate.
  subst r. split; reflexivity.
Qed.

Lemma parse_long_sound (av : list string) (i : Z) (a : string) (args : mrbc_args) :
  0 <= i < Z.of_nat (length av) ->
  sound is_diag (parse_long av i a args) (piter_ok av i args) not_fuel.
Proof.
  intro Hi. unfold parse_long.
  pose proof (same_frame_refl args) as Hrefl.
  assert (Hret : forall n, n = -1 \/ n = i -> piter_ok av i args (PReturn n args))
    by (intros; simpl; auto).
  assert (Hnext : forall a', same_frame args a' -> piter_ok av i args (PNext i a'))
    by (intros; simpl; split; [assumption | lia]).
  destruct (Ascii.eqb (char_at a 1) "010"); [apply sound_ret; auto|].
  destruct (streq (drop 2 a) "version");
    [apply sound_emit_then; [exact I | apply sound_halt; discriminate]|].
  destruct (streq (drop 2 a) "verbose");
    [apply sound_ret, Hnext; repeat split|].
  destruct (streq (drop 2 a) "copyright");
    [apply sound_emit_then; [exact I | apply sound_halt; discriminate]|].
  destruct (streq (drop 2 a) "remove-lv");
    [apply sound_ret, Hnext; repeat split|].
  destruct (streq (drop 2 a) "no-ext-ops");
    [apply sound_ret, Hnext; repeat split|].
  destruct (streq (drop 2 a) "no-optimize");
    [apply sound_ret, Hnext; repeat split|].
  destruct (streq (drop 2 a) "line-size") eqn:Hls; [|apply sound_ret; auto].
  destruct (line_size_value av i a Hls) as [Hv Hread].
  rewrite Hv, Hread.
  apply sound_emit_then; [exact I | apply sound_ret; auto].
Qed.

Lemma parse_arg_sound (av : list string) (i : Z) (args : mrbc_args) :
  sound is_diag (parse_arg av i args) (piter_ok av i args) not_fuel.
Proof.
  unfold parse_arg.
  destruct (argv_at av i) as [a|] eqn:Ha; [|apply sound_halt; discriminate].
  apply argv_at_bound in Ha as Hi.
  pose proof (same_frame_refl args) as Hrefl.
  pose proof (option_value_bound av i a Hi) as Hov.
  assert (Hret : forall n a', same_frame args a' -> n = -1 \/ n = i ->
                   piter_ok av i args (PReturn n a'))
    by (intros; simpl; auto).
  assert (Hnext : forall a', same_frame args a' -> piter_ok av i args (PNext i a'))
    by (intros; simpl; split; [assumption | lia]).
  destruct (Ascii.eqb (char_at a 0) "-"); [|apply sound_ret; exact Hrefl].
  destruct (Ascii.eqb (char_at a 1) "o").
  { destruct (outfile args).
    - apply sound_emit_then; [exact I | apply sound_ret; auto].
    - destruct (option_value av i a) as [i' v]. simpl in Hov.
      apply sound_ret. simpl. split; [repeat split | lia]. }
  destruct (Ascii.eqb (char_at a 1) "S"); [apply sound_ret, Hnext; repeat split|].
  destruct (Ascii.eqb (char_at a 1) "B").
  { destruct (option_value av i a) as [i' v]. simpl in Hov.
    destruct (Ascii.eqb (char_at (text v) 0) NUL).
    - apply sound_emit_then; [exact I | apply sound_ret, Hret; [repeat split | auto]].
    - apply sound_ret. simpl. split; [repeat split | lia]. }
  destruct (Ascii.eqb (char_at a 1) "H"); [apply sound_ret, Hnext; repeat split|].
  destruct (Ascii.eqb (char_at a 1) "8"); [apply sound_ret, Hnext; repeat split|].
  destruct (Ascii.eqb (char_at a 1) "c"); [apply sound_ret, Hnext; repeat split|].
  destruct (Ascii.eqb (char_at a 1) "v").
  { apply sound_bind with (Q1 := fun _ => True).
    - apply sound_when; [intros _; apply sound_emit; exact I | exact I].
    - intros _ _. apply sound_ret, Hnext; repeat split. }
  destruct (Ascii.eqb (char_at a 1) "g"); [apply sound_ret, Hnext; repeat split|].
  destruct (Ascii.eqb (char_at a 1) "s"); [apply sound_ret, Hnext; repeat split|].
  destruct (Ascii.eqb (char_at a 1) "E" || Ascii.eqb (char_at a 1) "e");
    [apply sound_emit_then; [exact I | apply sound_ret, Hnext; repeat split]|].
  destruct (Ascii.eqb (char_at a 1) "h"); [apply sound_ret; auto|].
  destruct (Ascii.eqb (char_at a 1) "-"); [now apply parse_long_sound|].
  apply sound_ret; auto.
Qed.

Lemma parse_loop_sound (av : list string) (fuel : nat) :
  forall (i : Z) (args : mrbc_args),
    argc args = Z.of_nat (length av) ->
    Z.of_nat (length av) - i <= Z.of_nat fuel ->
    sound is_diag (parse_loop fuel av i args) (loop_ok av i args) not_fuel.
Proof.
  induction fuel as [|fuel IH]; intros i args Hargc Hfuel; simpl.
  - destruct (Z.ltb_spec i (argc args)); [lia|].
    apply sound_ret. split; [apply same_frame_refl | simpl; right; right; split; [lia | reflexivity]].
  - destruct (Z.ltb_spec i (argc args)) as [Hlt|Hge].
    + eapply sound_bind; [apply parse_arg_sound|].
      intros [i' a' | a' | n a'] Hr; simpl in Hr.
      * destruct Hr as [Hfr Hi'].
        eapply sound_weaken with (psi := is_diag);
          [apply IH | auto | | auto].
        -- destruct Hfr as [Hc _]. congruence.
        -- lia.
        -- intros [n a''] [Hfr' Hn]. split; simpl in *.
           ++ eapply same_frame_trans; eauto.
           ++ destruct Hn as [Hn | [Hn | Hn]];
                [now left | right; left; lia |].
              destruct Hn as [Hlen Hn]. injection Hn as Hn _. right; left; lia.
      * apply sound_ret. split; simpl; [assumption | right; left; lia].
      * destruct Hr as [Hfr Hn]. apply sound_ret. split; simpl; [assumption|].
        destruct Hn as [Hn|Hn]; [now left | right; left; lia].
    + apply sound_ret.
      split; [apply same_frame_refl | simpl; right; right; split; [lia | reflexivity]].
Qed.


Lemma parse_args_sound (av : list string) (a : mrbc_args) :
  sound is_diag (parse_args av a) (parsed_ok av) not_fuel.
Proof.
  unfold parse_args. fold (args_start av).
  eapply sound_weaken with (psi := is_diag);
    [apply parse_loop_sound | auto | | auto].
  - reflexivity.
  - lia.
  - intros [n a'] [[Hc [Hv [Hi Hl]]] Hn]. simpl in *.
    repeat split; assumption.
Qed.

End ParseFacts.

(** ** The loader and the cursor *)

Section LoaderFacts.

Variable w : world.





End LoaderFacts.

(** ** The dump step emits no cursor event and needs no fuel *)

Section Quiet.

Context {A B : Type}.
Variable phi : event -> Prop.




End Quiet.













(** ** Option parsing: single elements *)

Section ParseElements.

Local Open Scope string_scope.

Lemma argv_at_middle (pre post : list string) (a : string) :
  argv_at (pre ++ a :: post) (Z.of_nat (length pre)) = Some a.
Proof.
  unfold argv_at. destruct (Z.ltb_spec (Z.of_nat (length pre)) 0); [lia|].
  rewrite Nat2Z.id, nth_error_app2, Nat.sub_diag by lia. reflexivity.
Qed.

Lemma drop_line_size (suffix : string) :
  streq ("line-size" ++ suffix) "line-size"
  = match suffix with EmptyString => true | _ => false end.
Proof. destruct suffix; reflexivity. Qed.

End ParseElements.

(** C10. A short option is chosen by the character after the dash alone: for
    each option that takes no value, an element with further characters after
    the letter is parsed exactly as the bare option, whatever state the
    parser is in; so [-vg] turns on verbose and nothing else, it does not
    ask for debug information. *)
Theorem short_flag_trailing_ignored :
  (forall (c : ascii) (rest : string) (pre post : list string)
          (args : mrbc_args) (st : state),
      no_value_flag c = true ->
      parse_arg (pre ++ String "-" (String c rest) :: post)
        (Z.of_nat (length pre)) args st
      = parse_arg (pre ++ String "-" (String c EmptyString) :: post)
          (Z.of_nat (length pre)) args st) /\
  (forall st,
      exists args,
        fst (parse_args ["mrbc"; "-vg"; "a.rb"]%string args_zero st)
        = Val (2, args)
          /\ verbose args = true
          /\ has_flag args MRB_DUMP_DEBUG_INFO = false
          /\ flags args = 0).
Proof.
  split.
  - intros c rest pre post args st Hc.
    unfold parse_arg. rewrite !argv_at_middle.
    unfold no_value_flag in Hc. simpl in Hc.
    repeat match type of Hc with
           | (Ascii.eqb c ?x || _) = true =>
               destruct (Ascii.eqb_spec c x) as [->|_]; [reflexivity | simpl in Hc]
           end.
    discriminate.
  - intro st. eexists. split; [reflexivity|]. repeat split.
Qed.

Lemma short_flag_trailing_ignored_witness :
  parse_arg ["mrbc"; "-cxyz"]%string 1 args_zero init_state
  = parse_arg ["mrbc"; "-c"]%string 1 args_zero init_state.
Proof.
  exact (proj1 short_flag_trailing_ignored "c"%char "xyz"%string
           ["mrbc"%string] [] args_zero init_state eq_refl).
Defined.

(** C4 (as the code has it). An element that starts with [--line-size] never
    stores a line size: with anything after the name, as in [--line-size=1]
    or [--line-size=255], it matches no long option and parse_args returns
    the failure sentinel without a message of its own; alone, its own text is
    handed to mrb_read_int and rejected. *)
Theorem line_size_option_always_rejected
    (pre post : list string) (suffix : string) (args : mrbc_args) (st : state) :
  parse_arg (pre ++ ("--line-size" ++ suffix)%string :: post)
    (Z.of_nat (length pre)) args st
  = (Val (PReturn (-1) args),
     MkState (trace st ++ match suffix with
                          | EmptyString => [EvStderr (MsgLineSize None)]
                          | _ => []
                          end)
             (nalloc st)).
Proof.
  unfold parse_arg. rewrite argv_at_middle.
  change (char_at ("--line-size" ++ suffix) 0) with "-"%char.
  change (char_at ("--line-size" ++ suffix) 1) with "-"%char.
  cbn [Ascii.eqb Bool.eqb orb].
  unfold parse_long.
  change (char_at ("--line-size" ++ suffix) 1) with "-"%char.
  change (drop 2 ("--line-size" ++ suffix)) with ("line-size" ++ suffix)%string.
  cbn [Ascii.eqb Bool.eqb].
  change (streq ("line-size" ++ suffix) "version") with false.
  change (streq ("line-size" ++ suffix) "verbose") with false.
  change (streq ("line-size" ++ suffix) "copyright") with false.
  change (streq ("line-size" ++ suffix) "remove-lv") with false.
  change (streq ("line-size" ++ suffix) "no-ext-ops") with false.
  change (streq ("line-size" ++ suffix) "no-optimize") with false.
  cbv iota. rewrite drop_line_size.
  destruct suffix as [|c suffix].
  - reflexivity.
  - destruct st as [tr k]. simpl. now rewrite app_nil_r.
Qed.

Example line_size_examples :
  forall w, 
  map (fun v => fst (run w ["mrbc"; v; "a.rb"]%string))
    ["--line-size=1"; "--line-size=255"; "--line-size=0"; "--line-size=256";
     "--line-size=abc"; "--line-size16"; "--line-size"]%string
  = repeat (Exit EXIT_FAILURE) 7.
Proof.
  intro w. unfold run, main. destruct (w_mrb_open w); reflexivity.
Qed.

(** ** dump_file *)

Section DumpFacts.

Variable w : world.

(** A pointer into a block other than the literal [".h"] is not equal to
    that literal, wherever in the block it points. *)
Lemma ext_pointer_differs (f : cptr) :
  blk f <> BLit C_HEAD_EXT ->
  match ptr_strrchr f "." with
  | Some e => ptr_eqb e (lit C_HEAD_EXT)
  | None => false
  end = false.
Proof.
  intro Hblk. unfold ptr_strrchr.
  destruct (strrchr (to_bytes (text f)) ".") as [k|]; [|reflexivity].
  unfold ptr_eqb, ptr_add, lit. simpl.
  destruct (blk f) as [i|s|n]; try reflexivity.
  simpl. destruct (String.eqb_spec s C_HEAD_EXT) as [->|Hne]; [|reflexivity].
  now contradiction Hblk.
Qed.

Lemma dump_file_symbol (wfp : stream) (f init : cptr) (args : mrbc_args) (st : state) :
  initname args = Some init -> blk f <> BLit C_HEAD_EXT ->
  let c := c_codec args init in
  let n := w_codec w c wfp in
  dump_file w wfp f args st
  = (Val n,
     MkState (trace st ++ (if remove_lv args then [EvRemoveLv] else [])
                ++ [EvCodec c wfp] ++ dump_messages f init n)
             (nalloc st)).
Proof.
  intros Hinit Hblk c n. unfold dump_file.
  rewrite Hinit, (ext_pointer_differs f Hblk).
  subst n c. unfold c_codec, dump_messages.
  destruct st as [tr k].
  destruct (remove_lv args), (has_flag args MRB_DUMP_STRUCT);
    unfold bind, when, codec, emit, ret; simpl;
    match goal with
    | |- context [w_codec w ?c wfp] =>
        destruct (w_codec w c wfp =? MRB_DUMP_INVALID_ARGUMENT);
        destruct (w_codec w c wfp =? MRB_DUMP_OK)
    end; simpl; rewrite <- ?app_assoc; reflexivity.
Qed.


Lemma filter_codec_messages (f init : cptr) (n : Z) :
  filter is_codec (dump_messages f init n) = [].
Proof.
  unfold dump_messages.
  destruct (n =? MRB_DUMP_INVALID_ARGUMENT), (negb (n =? MRB_DUMP_OK)); reflexivity.
Qed.

End DumpFacts.

(** C5 (as the code has it). With an embed symbol, dump_file calls exactly
    one codec; but for every target name that is not the string literal
    [".h"] itself (a buffer from get_outfilename, an argument-vector element)
    the comparison of the extension with [".h"] compares two different
    addresses, so the codec is the struct codec when the struct flag is set
    and the variable codec otherwise, never the header codec, whatever the
    extension of the name. *)
Theorem dump_file_never_selects_header
    (w : world) (wfp : stream) (f init : cptr) (args : mrbc_args) (st : state) :
  initname args = Some init -> blk f <> BLit C_HEAD_EXT ->
  let c := if has_flag args MRB_DUMP_STRUCT
           then Ccstruct (flags args) (text init)
           else Ccvar (flags args) (text init) (line_size args) in
  fst (dump_file w wfp f args st) = Val (w_codec w c wfp) /\
  filter is_codec (trace (snd (dump_file w wfp f args st)))
  = filter is_codec (trace st) ++ [EvCodec c wfp].
Proof.
  intros Hinit Hblk c.
  rewrite (dump_file_symbol w wfp f init args st Hinit Hblk).
  cbn [fst snd trace]. split; [reflexivity|].
  rewrite !filter_app, filter_codec_messages, app_nil_r.
  destruct (remove_lv args); reflexivity.
Qed.

Lemma dump_file_never_selects_header_witness :
  let args := set_initname args_zero (Some (argv_ptr 1 "sym")) in
  let f := CPtr (BHeap 0) 0 "out.h" in
  fst (dump_file fair_world (File "out.h") f args init_state) = Val MRB_DUMP_OK /\
  filter is_codec (trace (snd (dump_file fair_world (File "out.h") f args init_state)))
  = [EvCodec (Ccvar 0 "sym" 0) (File "out.h")].
Proof.
  intros args f.
  apply (dump_file_never_selects_header fair_world (File "out.h") f
           (argv_ptr 1 "sym") args init_state).
  - reflexivity.
  - discriminate.
Defined.

(** C3 (as the code has it). main stores 16 in [args.line_size] and then
    calls parse_args, which overwrites the whole of [*args] with zeroes; no
    option stores a line size afterwards.  So whenever parse_args returns,
    the configured line width is 0, and that is the width dump_file passes
    to the variable codec. *)
Theorem default_line_size_is_lost
    (w : world) (av : list string) (n : Z) (args : mrbc_args) (st : state) :
  parse_args av (set_line_size (w_stack_args w) 16) init_state = (Val (n, args), st) ->
  line_size args = 0 /\
  forall (wfp : stream) (f init : cptr) (st0 : state),
    initname args = Some init -> blk f <> BLit C_HEAD_EXT ->
    has_flag args MRB_DUMP_STRUCT = false ->
    filter is_codec (trace (snd (dump_file w wfp f args st0)))
    = filter is_codec (trace st0) ++ [EvCodec (Ccvar (flags args) (text init) 0) wfp].
Proof.
  intro Hparse.
  assert (Hls : line_size args = 0).
  { destruct (parse_args_sound av (set_line_size (w_stack_args w) 16) init_state)
      as [_ Hr].
    rewrite Hparse in Hr. simpl in Hr. apply Hr. }
  split; [exact Hls|].
  intros wfp f init st0 Hinit Hblk Hstruct.
  rewrite (dump_file_symbol w wfp f init args st0 Hinit Hblk).
  unfold c_codec. rewrite Hstruct, Hls. cbn [fst snd trace].
  rewrite !filter_app, filter_codec_messages, app_nil_r.
  destruct (remove_lv args); reflexivity.
Qed.

Lemma default_line_size_is_lost_witness :
  exists n args st,
    parse_args ["mrbc"; "-Bsym"; "-oout.c"; "a.rb"]%string
      (set_line_size (w_stack_args fair_world) 16) init_state
    = (Val (n, args), st) /\
    line_size args = 0 /\
    filter is_codec
      (trace (snd (dump_file fair_world (File "out.c") (CPtr (BHeap 0) 0 "out.c")
                     args init_state)))
    = [EvCodec (Ccvar 0 "sym" 0) (File "out.c")].
Proof.
  eexists. eexists. eexists.
  split; [reflexivity|].
  pose proof (default_line_size_is_lost fair_world
                ["mrbc"; "-Bsym"; "-oout.c"; "a.rb"]%string _ _ _ eq_refl)
    as [Hls Hdump].
  split; [exact Hls|].
  apply (Hdump (File "out.c") (CPtr (BHeap 0) 0 "out.c") _ init_state eq_refl).
  - discriminate.
  - reflexivity.
Defined.

(** ** The name get_outfilename derives, for every C string *)

Section DerivedName.

Local Open Scope string_scope.

Lemma last_occurrence (ch : ascii) (l : list ascii) :
  existsb (Ascii.eqb ch) l = true ->
  exists pre post, l = (pre ++ ch :: post)%list /\ existsb (Ascii.eqb ch) post = false.
Proof.
  induction l as [|c l IH]; simpl; intro H; [discriminate|].
  destruct (existsb (Ascii.eqb ch) l) eqn:Hl.
  - destruct (IH eq_refl) as (pre & post & -> & Hpost).
    exists (c :: pre), post. now split.
  - rewrite orb_false_r in H. apply Ascii.eqb_eq in H. subst c.
    exists [], l. now split.
Qed.

Lemma last_dot_split (s : string) :
  has_char "." s = true ->
  exists pre post, s = pre ++ "." ++ post /\ has_char "." post = false.
Proof.
  unfold has_char. intro H.
  destruct (last_occurrence "." (list_ascii_of_string s) H) as (pre & post & Hs & Hp).
  exists (string_of_list_ascii pre), (string_of_list_ascii post). split.
  - rewrite <- (string_of_list_ascii_of_string s), Hs, string_of_bytes_app.
    reflexivity.
  - now rewrite list_ascii_of_string_of_list_ascii.
Qed.

(** get_outfilename returns a name for every pair of C strings. *)
Lemma get_outfilename_total (infile ext : string) :
  nul_free infile = true -> nul_free ext = true ->
  exists name, CStr.get_outfilename infile ext = Some name.
Proof.
  intros Hi He.
  destruct (has_char "." infile) eqn:Hdot.
  - destruct (String.eqb_spec ext EmptyString) as [->|Hne].
    + exists infile. apply get_outfilename_plain; auto.
    + destruct (last_dot_split infile Hdot) as (pre & post & -> & Hpost).
      exists (pre ++ ext). apply get_outfilename_dot; auto.
  - exists infile. apply get_outfilename_plain; auto.
Qed.

End DerivedName.

(** ** main *)

Section MainFacts.

Local Open Scope string_scope.

Lemma filter_diag_open_write (d : list event) :
  Forall is_diag d -> filter is_open_write d = [] /\ filter is_codec d = [].
Proof.
  induction 1 as [|e d He _ [IH1 IH2]]; [now split|].
  destruct e; simpl in *; try contradiction; now split.
Qed.

(** What a returning parse_args leaves, from the initial state. *)
Lemma parse_args_result (av : list string) (a : mrbc_args) (n : Z)
    (args : mrbc_args) (st : state) :
  parse_args av a init_state = (Val (n, args), st) ->
  parsed_ok av (n, args) /\
  filter is_open_write (trace st) = [] /\ filter is_codec (trace st) = [].
Proof.
  intro H. destruct (parse_args_sound av a init_state) as [[d [Hd Hf]] Hr].
  rewrite H in Hd, Hr. simpl in Hd, Hr. split; [exact Hr|].
  rewrite Hd. now apply filter_diag_open_write.
Qed.

End MainFacts.

(** C7 (amended). For every invocation with two or more positional input
    files, no [-o] and no [-c] (option parsing returning the index of the
    first of them), the process exits with failure, and no file is opened for
    writing and no codec is called. *)
Theorem multiple_inputs_need_outfile
    (w : world) (av : list string) (n : Z) (args : mrbc_args) (st : state) :
  parse_args av (set_line_size (w_stack_args w) 16) init_state = (Val (n, args), st) ->
  0 <= n -> n + 2 <= Z.of_nat (length av) ->
  outfile args = None -> check_syntax args = false ->
  fst (run w av) = Exit EXIT_FAILURE /\
  filter is_open_write (snd (run w av)) = [] /\
  filter is_codec (snd (run w av)) = [].
Proof.
  intros Hparse Hn Hmany Hout Hcheck.
  destruct (parse_args_result _ _ _ _ _ Hparse) as [(Hc & _) [Hw Hcd]].
  simpl in Hc.
  assert (Hrun : run w av
                 = (Exit EXIT_FAILURE,
                    if w_mrb_open w
                    then trace st ++ [EvStderr MsgMultipleNeedOutfile]
                    else [EvStderr MsgInvalidState])).
  { unfold run, main. destruct (w_mrb_open w); simpl; [|reflexivity].
    unfold bind at 1. rewrite Hparse.
    destruct (Z.ltb_spec n 0) as [|_]; [lia|].
    destruct (Z.eqb_spec n (Z.of_nat (length av))) as [|_]; [lia|].
    unfold main_derive. rewrite Hout, Hcheck, Hc. simpl.
    destruct (Z.eqb_spec (n + 1) (Z.of_nat (length av))) as [|_]; [lia|].
    reflexivity. }
  rewrite Hrun. cbn [fst snd].
  destruct (w_mrb_open w); rewrite ?filter_app, ?Hw, ?Hcd; repeat split.
Qed.

Lemma multiple_inputs_need_outfile_witness :
  fst (run fair_world ["mrbc"; "-g"; "a.rb"; "b.rb"]%string) = Exit EXIT_FAILURE /\
  filter is_open_write (snd (run fair_world ["mrbc"; "-g"; "a.rb"; "b.rb"]%string)) = [] /\
  filter is_codec (snd (run fair_world ["mrbc"; "-g"; "a.rb"; "b.rb"]%string)) = [].
Proof.
  refine (multiple_inputs_need_outfile fair_world
            ["mrbc"; "-g"; "a.rb"; "b.rb"]%string 2 _ _ eq_refl _ _ eq_refl eq_refl);
    simpl; lia.
Defined.

(** C7 as stated fails with [-c]: two inputs without [-o] are compiled as one
    unit for the syntax check, and the process exits with success. *)
Lemma multiple_inputs_counterexample :
  run fair_world ["mrbc"; "-c"; "a.rb"; "b.rb"]%string
  = (Exit EXIT_SUCCESS,
     [EvCursor 2 4; EvOpenRead "a.rb" true; EvCursor 3 4; EvClose (File "a.rb");
      EvCursor 4 4; EvOpenRead "b.rb" true; EvClose (File "b.rb");
      EvSyntaxOK "a.rb"; EvMrbClose]).
Proof. reflexivity. Qed.

(** C1 (amended). For every invocation with exactly one positional input
    file, no [-o] and no [-c], main derives the output name from that input
    with the extension [".mrb"], or [".c"] when a symbol was given with [-B]:
    the input unchanged when it has no dot, and the text before its last dot
    followed by the extension when it has one. *)
Theorem single_input_derived_name
    (w : world) (av : list string) (n : Z) (args : mrbc_args) (st : state)
    (input : string) :
  parse_args av (set_line_size (w_stack_args w) 16) init_state = (Val (n, args), st) ->
  n + 1 = Z.of_nat (length av) ->
  outfile args = None -> check_syntax args = false ->
  argv_at av n = Some input -> nul_free input = true ->
  let ext := match initname args with Some _ => C_EXT | None => RITEBIN_EXT end in
  exists name,
    main_derive av n args st
    = (Val (Some (CPtr (BHeap (nalloc st)) 0 name)),
       MkState (trace st ++ [EvMalloc (nalloc st)]) (S (nalloc st))) /\
    (has_char "." input = false -> name = input) /\
    (forall pre post : string,
        input = (pre ++ "." ++ post)%string -> has_char "." post = false ->
        name = (pre ++ ext)%string).
Proof.
  intros Hparse Hone Hout Hcheck Hin Hnul ext.
  destruct (parse_args_result _ _ _ _ _ Hparse) as [(Hc & _) _]. simpl in Hc.
  assert (Hext : nul_free ext = true /\ ext <> EmptyString).
  { subst ext. destruct (initname args); split; (reflexivity || discriminate). }
  destruct Hext as [Hext Hne].
  destruct (get_outfilename_total input ext Hnul Hext) as [name Hname].
  exists name. split; [|split].
  - unfold main_derive. rewrite Hout, Hcheck, Hc, Hin. simpl.
    destruct (Z.eqb_spec (n + 1) (Z.of_nat (length av))) as [_|]; [|lia].
    unfold Mrbc.get_outfilename, bind, lit. simpl.
    fold ext. rewrite Hname. reflexivity.
  - intro Hnodot.
    rewrite (get_outfilename_plain input ext Hnul Hext (or_introl Hnodot)) in Hname.
    congruence.
  - intros pre post -> Hpost.
    rewrite (get_outfilename_dot pre post ext Hnul Hext Hpost Hne) in Hname.
    congruence.
Qed.

Lemma single_input_derived_name_witness :
  exists n args st name,
    parse_args ["mrbc"; "-Bsym"; "src/app.rb"]%string
      (set_line_size (w_stack_args fair_world) 16) init_state
    = (Val (n, args), st) /\
    fst (main_derive ["mrbc"; "-Bsym"; "src/app.rb"]%string n args st)
    = Val (Some (CPtr (BHeap 0) 0 name)) /\
    name = "src/app.c"%string.
Proof.
  destruct (single_input_derived_name fair_world
              ["mrbc"; "-Bsym"; "src/app.rb"]%string 2 _ _ "src/app.rb"%string
              eq_refl eq_refl eq_refl eq_refl eq_refl eq_refl)
    as (name & Hrun & _ & Hdot).
  do 3 eexists. exists name.
  split; [reflexivity|]. split.
  - exact (f_equal fst Hrun).
  - apply (Hdot "src/app"%string "rb"%string); reflexivity.
Defined.

(** C1 as stated fails: for [mrbc prog] the derived name is [prog], not
    [prog.mrb]; and for [mrbc prog] as for [mrbc a.rb], with an input that
    compiles, main keeps the derived name in [outfilename] but tests
    [args.outfile], which is still null: no file is opened for writing, no
    codec is called, and the process exits with failure. *)
Lemma single_input_counterexample :
  fst (main_derive ["mrbc"; "prog"]%string 1 (args_start ["mrbc"; "prog"]%string)
         init_state)
  = Val (Some (CPtr (BHeap 0) 0 "prog")) /\
  run fair_world ["mrbc"; "prog"]%string
  = (Exit EXIT_FAILURE,
     [EvMalloc 0; EvCursor 1 2; EvOpenRead "prog" true; EvCursor 2 2;
      EvClose (File "prog"); EvStderr MsgOutputRequired]) /\
  run fair_world ["mrbc"; "a.rb"]%string
  = (Exit EXIT_FAILURE,
     [EvMalloc 0; EvCursor 1 2; EvOpenRead "a.rb" true; EvCursor 2 2;
      EvClose (File "a.rb"); EvStderr MsgOutputRequired]).
Proof. repeat split. Qed.

(** C2 (as the code has it). When the header pass runs with an output path
    other than [-], it derives the name with the extension [".h"] and opens
    that file for writing; if the file cannot be opened it reports so, and if
    the file was opened it reports that an output file is required: either
    way it returns failure at once, and no codec is called on the file. *)
Theorem header_pass_never_writes_header
    (w : world) (args : mrbc_args) (o : cptr) (st : state) :
  has_flag args MRB_DUMP_HEADER = true ->
  outfile args = Some o -> nul_free (text o) = true ->
  streq "-" (text o) = false ->
  exists name,
    CStr.get_outfilename (text o) C_HEAD_EXT = Some name /\
    main_header w args st
    = (Halt (Exit EXIT_FAILURE),
       MkState (trace st ++
                  [EvMalloc (nalloc st);
                   EvOpenWrite name (w_writable w name);
                   EvStderr (if w_writable w name
                             then MsgOutputRequired
                             else MsgCannotOpenOutput name)])
               (S (nalloc st))).
Proof.
  intros Hflag Hout Hnul Hdash.
  destruct (get_outfilename_total (text o) C_HEAD_EXT Hnul eq_refl) as [name Hname].
  exists name. split; [exact Hname|].
  unfold main_header, Mrbc.get_outfilename, lit.
  rewrite Hflag, Hout. cbn [text]. rewrite Hname.
  unfold bind, read_var, ret. cbn [text]. rewrite Hdash.
  destruct st as [tr k]. unfold emit, halt. cbn [trace nalloc].
  destruct (w_writable w name); simpl; rewrite <- !app_assoc; reflexivity.
Qed.

Lemma header_pass_never_writes_header_witness :
  exists args,
    fst (parse_args ["mrbc"; "-H"; "-Bsym"; "-oout.c"; "a.rb"]%string
           args_zero init_state)
    = Val (4, args) /\
    main_header fair_world args init_state
    = (Halt (Exit EXIT_FAILURE),
       MkState [EvMalloc 0; EvOpenWrite "out.h" true; EvStderr MsgOutputRequired] 1).
Proof.
  pose (av := ["mrbc"; "-H"; "-Bsym"; "-oout.c"; "a.rb"]%string).
  pose (args := set_outfile
                  (set_initname (or_flags (args_start av) MRB_DUMP_HEADER)
                     (Some (ptr_add (argv_ptr 2 "-Bsym") 2)))
                  (Some (ptr_add (argv_ptr 3 "-oout.c") 2))).
  destruct (header_pass_never_writes_header fair_world args
              (ptr_add (argv_ptr 3 "-oout.c") 2) init_state
              eq_refl eq_refl eq_refl eq_refl)
    as (name & Hname & Hrun).
  exists args. split; [reflexivity|].
  injection Hname as <-. exact Hrun.
Defined.

(** With [-o -] the header pass does write to standard output, but the name
    derived from [-] has no extension, so the codec is the one the primary
    pass used, not the header codec. *)
Example header_pass_to_stdout :
  exists args,
    fst (parse_args ["mrbc"; "-H"; "-Bsym"; "-o"; "-"; "a.rb"]%string
           args_zero init_state)
    = Val (5, args) /\
    main_header fair_world args init_state
    = (Val tt,
       MkState [EvMalloc 0; EvCodec (Ccvar 8 "sym" 0) Stdout; EvClose Stdout;
                EvFree (BHeap 0)] 1).
Proof. eexists. split; reflexivity. Qed.

(** With [-o] the name in [outfilename] is never assigned: once the input is
    loaded, main reads the uninitialised variable, for fopen or, with [-o -],
    for dump_file. *)
Example explicit_outfile_reads_uninitialised :
  run fair_world ["mrbc"; "-H"; "-Bsym"; "-oout.c"; "a.rb"]%string
  = (Undefined,
     [EvCursor 4 5; EvOpenRead "a.rb" true; EvCursor 5 5; EvClose (File "a.rb")]) /\
  run fair_world ["mrbc"; "-o"; "-"; "a.rb"]%string
  = (Undefined,
     [EvCursor 3 4; EvOpenRead "a.rb" true; EvCursor 4 4; EvClose (File "a.rb")]).
Proof. split; reflexivity. Qed.





(** * Further properties *)

(** ** Invariants of option parsing *)

Ltac parse_walk :=
  repeat match goal with
    | |- sound _ (ret _) _ _ => apply sound_ret
    | |- sound _ (halt _) _ _ => apply sound_halt
    | |- sound _ (bind (emit _) _) _ _ => apply sound_emit_then; [exact I|]
    | |- sound _ (bind (when _ _) _) _ _ =>
        apply sound_bind with (Q1 := fun _ => True);
        [apply sound_when; [intros _; apply sound_emit; exact I | exact I]
        | intros _ _]
    | |- sound _ (if ?b then _ else _) _ _ => destruct b eqn:?
    | |- sound _ (match ?x with _ => _ end) _ _ => destruct x eqn:?
    end.

Section ParseInvariants.

Variable av : list string.
Variable P : mrbc_args -> Prop.
Variable Pret : Z -> mrbc_args -> Prop.
Variable E : outcome -> Prop.

Hypothesis P_argc : forall a, P a -> argc a = Z.of_nat (length av).
Hypothesis P_end : forall i a, 0 <= i -> argc a <= i -> P a -> Pret i a.
Hypothesis P_step :
  forall i a, 0 <= i < argc a -> P a ->
    sound (fun _ => True) (parse_arg av i a)
      (fun r => match r with
                | PNext i' a' => P a' /\ i <= i'
                | PBreak a' => Pret i a'
                | PReturn n a' => Pret n a'
                end) E.

(** An invariant of the turns of the loop holds of what the loop returns. *)
Lemma parse_loop_inv (fuel : nat) :
  forall (i : Z) (a : mrbc_args),
    0 <= i -> Z.of_nat (length av) - i <= Z.of_nat fuel -> P a ->
    sound (fun _ => True) (parse_loop fuel av i a)
      (fun r => Pret (fst r) (snd r)) E.
Proof.
  induction fuel as [|fuel IH]; intros i a Hi Hfuel HP; simpl;
    pose proof (P_argc a HP) as Hargc.
  - destruct (Z.ltb_spec i (argc a)); [lia|].
    apply sound_ret. simpl. now apply P_end.
  - destruct (Z.ltb_spec i (argc a)) as [Hlt|Hge].
    + eapply sound_bind; [apply P_step; [lia | exact HP]|].
      intros [i' a' | a' | n a'] Hr.
      * destruct Hr as [HP' Hi']. apply IH; [lia | lia | exact HP'].
      * apply sound_ret. exact Hr.
      * apply sound_ret. exact Hr.
    + apply sound_ret. simpl. now apply P_end.
Qed.

End ParseInvariants.

Section ParseContract.

Local Open Scope string_scope.

Lemma argv_at_some (av : list string) (i : Z) :
  0 <= i < Z.of_nat (length av) -> exists a, argv_at av i = Some a.
Proof.
  intro Hi. unfold argv_at. destruct (Z.ltb_spec i 0); [lia|].
  destruct (nth_error av (Z.to_nat i)) eqn:Hn; [eauto|].
  apply nth_error_None in Hn. lia.
Qed.

Lemma is_option_no_dash (a : string) :
  Ascii.eqb (char_at a 0) "-" = false -> is_option a = false.
Proof. intro H. unfold is_option. now rewrite H. Qed.

(** One turn of the loop keeps the set-up of [*args]; it returns the failure
    sentinel or its own index, the latter only at an element that is not an
    option; and it ends the process only with success. *)
Lemma parse_arg_contract (av : list string) (p0 : option cptr) (i : Z)
    (args : mrbc_args) :
  0 <= i < argc args ->
  (argc args = Z.of_nat (length av) /\ argv args = av /\ idx args = 0 /\
   prog args = p0) ->
  sound (fun _ => True) (parse_arg av i args)
    (fun r =>
       match r with
       | PNext i' a' =>
           (argc a' = Z.of_nat (length av) /\ argv a' = av /\ idx a' = 0 /\
            prog a' = p0) /\ i <= i'
       | PBreak a' =>
           (argc a' = Z.of_nat (length av) /\ argv a' = av /\ idx a' = 0 /\
            prog a' = p0) /\ (i = -1 \/ (0 <= i /\ boundary av i))
       | PReturn n a' =>
           (argc a' = Z.of_nat (length av) /\ argv a' = av /\ idx a' = 0 /\
            prog a' = p0) /\ (n = -1 \/ (0 <= n /\ boundary av n))
       end)
    (fun o => o = Exit EXIT_SUCCESS).
Proof.
  intros Hi HP. destruct HP as (Hc & Hv & Hx & Hp).
  assert (Hia : 0 <= i < Z.of_nat (length av)) by lia.
  destruct (argv_at_some av i Hia) as [a Ha].
  pose proof (option_value_bound av i a Hia) as Hov.
  unfold parse_arg, parse_long. rewrite Ha. cbv zeta.
  parse_walk;
    try reflexivity;
    try (split;
         [ simpl; repeat split; assumption
         | first
             [ lia
             | left; reflexivity
             | simpl in Hov; lia
             | right; split; [lia|]; unfold boundary; rewrite Ha;
               first
                 [ now apply is_option_no_dash
                 | unfold is_option, option_letters; cbn [existsb];
                   repeat match goal with
                     | H : (_ || _) = false |- _ =>
                         apply orb_false_elim in H; destruct H
                     end;
                   repeat match goal with
                     | H : Ascii.eqb _ _ = _ |- _ => rewrite H; clear H
                     end;
                   reflexivity ] ] ]).
  (* the test for a newline after a dash that is also a dash *)
  all: try (exfalso;
    repeat match goal with
      | H : Ascii.eqb _ _ = true |- _ => apply Ascii.eqb_eq in H
      end; congruence).
Qed.

End ParseContract.

(** X1. The contract of parse_args: it ends the process only with success
    (for the version and the copyright); otherwise it returns, with the
    count, the vector and the program name of the invocation stored and the
    cursor at zero, either the failure sentinel or an index from 1 up to the
    count at which there is no element the switch has a case for. *)
Theorem parse_args_contract (av : list string) (a0 : mrbc_args) (st : state) :
  match fst (parse_args av a0 st) with
  | Val (n, args) =>
      argc args = Z.of_nat (length av) /\ argv args = av /\ idx args = 0 /\
      prog args = option_map (argv_ptr 0) (argv_at av 0) /\
      (n = -1 \/
       (1 <= n /\ (n <= Z.of_nat (length av) \/ av = []) /\ boundary av n))
  | Halt o => o = Exit EXIT_SUCCESS
  end.
Proof.
  pose proof (parse_args_sound av a0 st) as [_ Hbound].
  pose (P := fun a : mrbc_args =>
               argc a = Z.of_nat (length av) /\ argv a = av /\ idx a = 0 /\
               prog a = option_map (argv_ptr 0) (argv_at av 0)).
  pose (Pret := fun (n : Z) (a : mrbc_args) =>
                  P a /\ (n = -1 \/ (0 <= n /\ boundary av n))).
  assert (Hinv : sound (fun _ => True) (parse_loop (length av) av 1 (args_start av))
                   (fun r => Pret (fst r) (snd r))
                   (fun o => o = Exit EXIT_SUCCESS)).
  { apply parse_loop_inv with (P := P).
    - intros a Ha. apply Ha.
    - intros i a Hi Hge Ha. split; [exact Ha|]. right. split; [exact Hi|].
      unfold boundary. destruct (argv_at av i) as [x|] eqn:Hx; [|exact I].
      apply argv_at_bound in Hx. destruct Ha as [Hc _]. lia.
    - intros i a Hi Ha. now apply parse_arg_contract.
    - lia.
    - lia.
    - repeat split. }
  destruct (Hinv st) as [_ Hret].
  unfold parse_args in *. fold (args_start av) in *.
  destruct (fst (parse_loop (length av) av 1 (args_start av) st)) as [[n args]|o];
    [|exact Hret].
  destruct Hret as [(Hc & Hv & Hx & Hp) Hn].
  destruct Hbound as (_ & _ & _ & _ & Hb). simpl in *.
  repeat split; try assumption.
  destruct Hn as [Hn | [Hn0 Hbd]]; [now left|].
  right. destruct Hb as [Hb | [Hb | [Hlen Hb]]]; [lia | |].
  - repeat split; try lia; exact Hbd.
  - injection Hb as -> _. repeat split; try lia; try exact Hbd.
    destruct av as [|x [|y av']]; [now right | left; simpl; lia | simpl in Hlen; lia].
Qed.

(** X3. Whenever parse_args returns an index (not the failure sentinel), the
    symbol name of the configuration is unset or not empty. *)
Theorem initname_never_empty (av : list string) (a0 : mrbc_args) (st : state) :
  match fst (parse_args av a0 st) with
  | Val (n, args) => n = -1 \/ initname_ok args
  | Halt _ => True
  end.
Proof.
  pose (P := fun a : mrbc_args =>
               argc a = Z.of_nat (length av) /\ initname_ok a).
  pose (Pret := fun (n : Z) (a : mrbc_args) => n = -1 \/ initname_ok a).
  assert (Hinv : sound (fun _ => True) (parse_loop (length av) av 1 (args_start av))
                   (fun r => Pret (fst r) (snd r)) (fun _ => True)).
  { apply parse_loop_inv with (P := P).
    - intros a Ha. apply Ha.
    - intros i a _ _ Ha. right. apply Ha.
    - intros i a Hi [Hc Hok]. unfold parse_arg, parse_long. cbv zeta.
      unfold P, Pret, initname_ok in *.
      assert (Hia : 0 <= i < Z.of_nat (length av)) by lia.
      destruct (argv_at_some av i Hia) as [x Hx]. rewrite Hx.
      pose proof (option_value_bound av i x Hia) as Hov.
      parse_walk;
        try exact I;
        try (right; exact Hok);
        try (left; reflexivity);
        try (split; [split; [exact Hc | simpl; try exact Hok] | simpl in Hov; lia]).
      all: try (now apply Ascii.eqb_neq).
      all: try exact I.
    - lia.
    - lia.
    - split; [reflexivity | exact I]. }
  destruct (Hinv st) as [_ Hret].
  unfold parse_args. fold (args_start av).
  destruct (fst (parse_loop (length av) av 1 (args_start av) st)) as [[n args]|o];
    [exact Hret | exact I].
Qed.

(** X2. Once an output path is set, option parsing never changes it: the
    loop, from any index on, returns a configuration with the same output
    path, and an element [-o...] met with a path already set is rejected
    with the failure sentinel and a message naming the path set before. *)
Theorem outfile_set_once
    (av pre post : list string) (rest : string) (o : cptr) (fuel : nat) (i : Z)
    (args : mrbc_args) (st : state) :
  outfile args = Some o -> argc args = Z.of_nat (length av) ->
  0 <= i -> Z.of_nat (length av) - i <= Z.of_nat fuel ->
  match fst (parse_loop fuel av i args st) with
  | Val (n, a) => outfile a = Some o
  | Halt _ => True
  end /\
  parse_arg (pre ++ String "-" (String "o" rest) :: post) (Z.of_nat (length pre))
    args st
  = (Val (PReturn (-1) args),
     MkState (trace st ++ [EvStderr (MsgOutfileAlready (text o))]) (nalloc st)).
Proof.
  intros Hout Hargc Hi Hfuel. split.
  - pose (P := fun a : mrbc_args =>
                 argc a = Z.of_nat (length av) /\ outfile a = Some o).
    assert (Hinv : sound (fun _ => True) (parse_loop fuel av i args)
                     (fun r => outfile (snd r) = Some o) (fun _ => True)).
    { apply parse_loop_inv
        with (P := P) (Pret := fun (_ : Z) (a : mrbc_args) => outfile a = Some o).
      - intros a Ha. apply Ha.
      - intros j a _ _ Ha. apply Ha.
      - intros j a Hj [Hc Ho]. unfold parse_arg, parse_long. cbv zeta.
        unfold P.
        assert (Hja : 0 <= j < Z.of_nat (length av)) by lia.
        destruct (argv_at_some av j Hja) as [x Hx]. rewrite Hx.
        pose proof (option_value_bound av j x Hja) as Hov.
        parse_walk;
          try exact I;
          try exact Ho;
          try congruence;
          try (split; [split; [exact Hc | exact Ho] | simpl in Hov; lia]).
      - exact Hi.
      - exact Hfuel.
      - split; assumption. }
    destruct (Hinv st) as [_ Hret].
    destruct (fst (parse_loop fuel av i args st)) as [[n a]|h];
      [exact Hret | exact I].
  - unfold parse_arg. rewrite argv_at_middle.
    change (char_at (String "-" (String "o" rest)) 0) with "-"%char.
    change (char_at (String "-" (String "o" rest)) 1) with "o"%char.
    cbn [Ascii.eqb Bool.eqb]. rewrite Hout. reflexivity.
Qed.

Lemma outfile_set_once_witness :
  let av := ["mrbc"; "-oa.mrb"; "-g"; "-ob.mrb"; "x.rb"]%string in
  let o := ptr_add (argv_ptr 1 "-oa.mrb") 2 in
  let args := set_outfile (args_start av) (Some o) in
  match fst (parse_loop 5 av 2 args init_state) with
  | Val (n, a) => outfile a = Some o
  | Halt _ => True
  end /\
  parse_arg (["mrbc"; "-oa.mrb"; "-g"]%string ++ "-ob.mrb"%string :: ["x.rb"%string])
    3 args init_state
  = (Val (PReturn (-1) args),
     MkState [EvStderr (MsgOutfileAlready "a.mrb")] 0).
Proof.
  intros av o args.
  exact (outfile_set_once av ["mrbc"; "-oa.mrb"; "-g"]%string ["x.rb"%string]
           "b.mrb" o 5 2 args init_state
           eq_refl eq_refl ltac:(lia) ltac:(simpl; lia)).
Defined.

Section FlagFacts.

Lemma five_flags (c : ascii) (bit : Z) :
  flag_of_letter c = Some bit ->
  bit = 1 \/ bit = 2 \/ bit = 4 \/ bit = 8 \/ bit = 16.
Proof.
  unfold flag_of_letter.
  repeat match goal with
         | |- context [if ?b then _ else _] => destruct b
         end; intro H; inversion H; subst; vm_compute; tauto.
Qed.

Lemma small_flags (f : Z) :
  0 <= f < 32 -> exists n : nat, f = Z.of_nat n /\ (n < 32)%nat.
Proof. intro H. exists (Z.to_nat f). split; lia. Qed.

(** Setting a flag in the 5-bit field sets it, keeps the flags already set,
    and stays within the field. *)
Lemma or_flags_keeps (f b b' : Z) :
  0 <= f < 32 ->
  (b = 1 \/ b = 2 \/ b = 4 \/ b = 8 \/ b = 16) ->
  (b' = 1 \/ b' = 2 \/ b' = 4 \/ b' = 8 \/ b' = 16) ->
  (Z.land (Z.land (Z.lor f b) 31) b =? 0) = false /\
  ((Z.land f b' =? 0) = false ->
   (Z.land (Z.land (Z.lor f b) 31) b' =? 0) = false) /\
  0 <= Z.land (Z.lor f b) 31 < 32.
Proof.
  intros Hf Hb Hb'.
  destruct (small_flags f Hf) as (n & -> & Hn).
  do 32 (destruct n as [|n];
         [ clear Hn Hf;
           destruct Hb as [-> | [-> | [-> | [-> | ->]]]];
           destruct Hb' as [-> | [-> | [-> | [-> | ->]]]];
           vm_compute; repeat split; (discriminate || auto)
         | ]).
  lia.
Qed.

Lemma has_flag_or_flags (a : mrbc_args) (b b' : Z) :
  0 <= flags a < 32 ->
  (b = 1 \/ b = 2 \/ b = 4 \/ b = 8 \/ b = 16) ->
  (b' = 1 \/ b' = 2 \/ b' = 4 \/ b' = 8 \/ b' = 16) ->
  has_flag (or_flags a b) b = true /\
  (has_flag a b' = true -> has_flag (or_flags a b) b' = true) /\
  0 <= flags (or_flags a b) < 32.
Proof.
  intros Hf Hb Hb'. unfold has_flag. simpl.
  destruct (or_flags_keeps (flags a) b b' Hf Hb Hb') as (H1 & H2 & H3).
  rewrite H1. split; [reflexivity|]. split; [|exact H3].
  intro H. apply negb_true_iff in H. now rewrite (H2 H).
Qed.

Lemma parse_arg_flag (c : ascii) (bit : Z) (rest : string)
    (pre post : list string) (args : mrbc_args) :
  flag_of_letter c = Some bit ->
  parse_arg (pre ++ String "-" (String c rest) :: post) (Z.of_nat (length pre)) args
  = ret (PNext (Z.of_nat (length pre)) (or_flags args bit)).
Proof.
  intro Hc. unfold parse_arg. rewrite argv_at_middle.
  unfold flag_of_letter in Hc.
  repeat match type of Hc with
         | (if Ascii.eqb c ?x then _ else _) = _ =>
             destruct (Ascii.eqb_spec c x) as [->|_];
             [injection Hc as <-; reflexivity|]
         end.
  discriminate.
Qed.

End FlagFacts.

(** X4. An output-format flag option ([-S], [-H], [-8], [-g], [-s]) that
    the loop of parse_args reaches is recorded in whatever configuration the
    loop returns afterwards: no later option clears it, and the flags stay
    within the 5-bit field. *)
Theorem format_flag_recorded
    (c : ascii) (bit : Z) (rest : string) (pre post : list string) (fuel : nat)
    (args : mrbc_args) (st : state) :
  flag_of_letter c = Some bit ->
  argc args = Z.of_nat (length (pre ++ String "-" (String c rest) :: post)) ->
  0 <= flags args < 32 ->
  (length post <= fuel)%nat ->
  match fst (parse_loop (S fuel) (pre ++ String "-" (String c rest) :: post)
               (Z.of_nat (length pre)) args st) with
  | Val (n, a) => has_flag a bit = true /\ 0 <= flags a < 32
  | Halt _ => True
  end.
Proof.
  intros Hc Hargc Hf Hfuel.
  set (av := pre ++ String "-" (String c rest) :: post) in *.
  assert (Hlen : Z.of_nat (length av) = Z.of_nat (length pre) + 1 + Z.of_nat (length post)).
  { subst av. rewrite length_app. simpl. lia. }
  pose proof (five_flags c bit Hc) as Hbit.
  pose (P := fun a : mrbc_args =>
               argc a = Z.of_nat (length av) /\ 0 <= flags a < 32 /\
               has_flag a bit = true).
  assert (Hinv : sound (fun _ => True)
                   (parse_loop fuel av (Z.of_nat (length pre) + 1) (or_flags args bit))
                   (fun r => has_flag (snd r) bit = true /\ 0 <= flags (snd r) < 32)
                   (fun _ => True)).
  { apply parse_loop_inv
      with (P := P)
           (Pret := fun (_ : Z) (a : mrbc_args) =>
                      has_flag a bit = true /\ 0 <= flags a < 32).
    - intros a Ha. apply Ha.
    - intros j a _ _ (_ & Hb & Hh). now split.
    - intros j a Hj (Hca & Hfa & Hha). unfold parse_arg, parse_long. cbv zeta.
      unfold P.
      assert (Hja : 0 <= j < Z.of_nat (length av)) by lia.
      destruct (argv_at_some av j Hja) as [x Hx]. rewrite Hx.
      pose proof (option_value_bound av j x Hja) as Hov.
      assert (Hor : forall b, b = 1 \/ b = 2 \/ b = 4 \/ b = 8 \/ b = 16 ->
                      has_flag (or_flags a b) bit = true /\
                      0 <= flags (or_flags a b) < 32).
      { intros b Hb. destruct (has_flag_or_flags a b bit Hfa Hb Hbit) as (_ & Hk & Hbd).
        split; [now apply Hk | exact Hbd]. }
      parse_walk;
        try exact I;
        try (split; [exact Hha | exact Hfa]);
        try (split; [split; [exact Hca | split; [exact Hfa | exact Hha]]
                    | simpl in Hov; lia]).
      all: split; [|lia]; split; [exact Hca|];
        match goal with
        | |- context [or_flags _ ?b] =>
            destruct (Hor b) as [Hh' Hb'];
            [vm_compute; tauto | split; [exact Hb' | exact Hh']]
        end.
    - lia.
    - lia.
    - destruct (has_flag_or_flags args bit bit Hf Hbit Hbit) as (Hset & _ & Hbd).
      repeat split; try assumption; apply Hbd. }
  assert (Hrun : sound (fun _ => True)
                   (parse_loop (S fuel) av (Z.of_nat (length pre)) args)
                   (fun r => has_flag (snd r) bit = true /\ 0 <= flags (snd r) < 32)
                   (fun _ => True)).
  { simpl. destruct (Z.ltb_spec (Z.of_nat (length pre)) (argc args)); [|lia].
    subst av. rewrite (parse_arg_flag c bit rest pre post args Hc).
    apply sound_bind with (Q1 := fun r => r = PNext (Z.of_nat (length pre)) (or_flags args bit)).
    - now apply sound_ret.
    - intros r ->. exact Hinv. }
  destruct (Hrun st) as [_ Hret].
  destruct (fst (parse_loop (S fuel) av (Z.of_nat (length pre)) args st))
    as [[n a]|h]; [exact Hret | exact I].
Qed.

Lemma format_flag_recorded_witness :
  match fst (parse_loop 4 (["mrbc"]%string ++ "-sx"%string :: ["-g"; "-oa"; "x.rb"]%string)
               1 (args_start ["mrbc"; "-sx"; "-g"; "-oa"; "x.rb"]%string) init_state) with
  | Val (n, a) => has_flag a MRB_DUMP_STATIC = true /\ 0 <= flags a < 32
  | Halt _ => True
  end.
Proof.
  exact (format_flag_recorded "s" MRB_DUMP_STATIC "x" ["mrbc"]%string
           ["-g"; "-oa"; "x.rb"]%string 3
           (args_start ["mrbc"; "-sx"; "-g"; "-oa"; "x.rb"]%string) init_state
           eq_refl eq_refl ltac:(simpl; lia) ltac:(simpl; lia)).
Defined.

(** X5. When option parsing fails, or leaves no positional argument, the
    process exits with failure after the usage text, or after the complaint
    that no program file was given; up to then the run has only printed
    diagnostics: no file was opened and nothing was allocated. *)
Theorem usage_errors_before_io
    (w : world) (av : list string) (n : Z) (args : mrbc_args) (st : state) :
  w_mrb_open w = true ->
  parse_args av (set_line_size (w_stack_args w) 16) init_state = (Val (n, args), st) ->
  n < 0 \/ n = Z.of_nat (length av) ->
  run w av
  = (Exit EXIT_FAILURE,
     trace st ++ (if n <? 0 then [EvMrbClose; EvUsage]
                  else [EvStderr MsgNoProgramFile])) /\
  Forall is_diag (trace st).
Proof.
  intros Hopen Hparse Hn. split.
  - unfold run, main. rewrite Hopen. simpl.
    unfold bind at 1. rewrite Hparse.
    destruct (Z.ltb_spec n 0) as [Hneg|Hpos].
    + unfold bind, emit, halt. simpl. now rewrite <- app_assoc.
    + destruct (Z.eqb_spec n (Z.of_nat (length av))) as [_|Hne]; [reflexivity | lia].
  - destruct (parse_args_sound av (set_line_size (w_stack_args w) 16) init_state)
      as [[d [Hd Hf]] _].
    rewrite Hparse in Hd. simpl in Hd. now rewrite Hd.
Qed.

Lemma usage_errors_before_io_witness :
  run fair_world ["mrbc"; "-g"; "-B"]%string
  = (Exit EXIT_FAILURE, [EvStderr MsgNoFunctionName; EvMrbClose; EvUsage]) /\
  Forall is_diag [EvStderr MsgNoFunctionName].
Proof.
  exact (usage_errors_before_io fair_world ["mrbc"; "-g"; "-B"]%string (-1) _ _
           eq_refl eq_refl (or_introl eq_refl)).
Defined.

Lemma parse_loop_S (fuel : nat) (av : list string) (i : Z) (args : mrbc_args) :
  parse_loop (S fuel) av i args
  = if i <? argc args
    then r <- parse_arg av i args ;;
         match r with
         | PNext i' args' => parse_loop fuel av (i' + 1) args'
         | PBreak args' => ret (i, args')
         | PReturn n args' => ret (n, args')
         end
    else ret (i, args).
Proof. reflexivity. Qed.

(** X6. When the loop of parse_args is at an element [--version] or
    [--copyright], it prints the version or the copyright and ends the
    process with success at once, whatever the configuration so far and
    whatever follows; so an invocation that starts with one of them exits
    with success without looking at the rest, program files or not. *)
Theorem version_and_copyright_exit
    (w : world) (prog : string) (pre post rest : list string) (fuel : nat)
    (args : mrbc_args) (st : state) :
  w_mrb_open w = true ->
  Z.of_nat (length pre) < argc args ->
  parse_loop (S fuel) (pre ++ "--version"%string :: post) (Z.of_nat (length pre))
    args st
  = (Halt (Exit EXIT_SUCCESS), MkState (trace st ++ [EvShowVersion]) (nalloc st)) /\
  parse_loop (S fuel) (pre ++ "--copyright"%string :: post) (Z.of_nat (length pre))
    args st
  = (Halt (Exit EXIT_SUCCESS), MkState (trace st ++ [EvShowCopyright]) (nalloc st)) /\
  run w (prog :: "--version"%string :: rest) = (Exit EXIT_SUCCESS, [EvShowVersion]) /\
  run w (prog :: "--copyright"%string :: rest) = (Exit EXIT_SUCCESS, [EvShowCopyright]).
Proof.
  intros Hopen Hlt.
  assert (Hloop : forall long ev,
            parse_arg (pre ++ long :: post) (Z.of_nat (length pre)) args st
            = (Halt (Exit EXIT_SUCCESS), MkState (trace st ++ [ev]) (nalloc st)) ->
            parse_loop (S fuel) (pre ++ long :: post) (Z.of_nat (length pre)) args st
            = (Halt (Exit EXIT_SUCCESS), MkState (trace st ++ [ev]) (nalloc st))).
  { intros long ev Harg. simpl.
    destruct (Z.ltb_spec (Z.of_nat (length pre)) (argc args)); [|lia].
    unfold bind. now rewrite Harg. }
  assert (Hrun : forall long ev,
            (forall a s, parse_arg (prog :: long :: rest) 1 a s
                         = (Halt (Exit EXIT_SUCCESS),
                            MkState (trace s ++ [ev]) (nalloc s))) ->
            run w (prog :: long :: rest) = (Exit EXIT_SUCCESS, [ev])).
  { intros long ev Harg.
    assert (Hpa : forall a s,
              parse_args (prog :: long :: rest) a s
              = (Halt (Exit EXIT_SUCCESS), MkState (trace s ++ [ev]) (nalloc s))).
    { intros a s. unfold parse_args.
      change (length (prog :: long :: rest)) with (S (S (length rest))).
      rewrite parse_loop_S.
      match goal with
      | |- context [1 <? argc ?x] =>
          replace (1 <? argc x) with true
            by (symmetry; apply Z.ltb_lt; simpl; lia)
      end.
      unfold bind. now rewrite Harg. }
    unfold run, main. rewrite Hopen.
    change (negb true) with false. cbv iota zeta.
    unfold bind at 1. rewrite Hpa. reflexivity. }
  split; [|split; [|split]].
  - apply Hloop. unfold parse_arg. now rewrite argv_at_middle.
  - apply Hloop. unfold parse_arg. now rewrite argv_at_middle.
  - apply Hrun. reflexivity.
  - apply Hrun. reflexivity.
Qed.

Lemma version_and_copyright_exit_witness :
  run fair_world ["mrbc"; "--version"; "-oa"; "-ob"]%string
  = (Exit EXIT_SUCCESS, [EvShowVersion]) /\
  run fair_world ["mrbc"; "--copyright"]%string
  = (Exit EXIT_SUCCESS, [EvShowCopyright]).
Proof.
  pose proof (version_and_copyright_exit fair_world "mrbc" ["mrbc"%string] []
                ["-oa"; "-ob"]%string 0
                (args_start ["mrbc"; "--version"]%string) init_state
                eq_refl ltac:(simpl; lia)) as (_ & _ & Hv & _).
  pose proof (version_and_copyright_exit fair_world "mrbc" ["mrbc"%string] []
                [] 0 (args_start ["mrbc"; "--version"]%string) init_state
                eq_refl ltac:(simpl; lia)) as (_ & _ & _ & Hc).
  split; assumption.
Defined.

(** ** The loader: what it changes and what it feeds the parser *)

Section LoaderFrame.

Variable w : world.

Lemma set_idx_same (a : mrbc_args) : set_idx a (idx a) = a.
Proof. now destruct a. Qed.


Lemma partial_hook_frame (args : mrbc_args) (p : parser_state) :
  sound is_loader_event (partial_hook w args p)
    (fun r => snd (fst r) = set_idx args (idx (snd (fst r)))) (fun o => o <> Exit EXIT_SUCCESS).
Proof.
  unfold partial_hook.
  apply sound_bind with (Q1 := fun _ => True).
  { destruct (pf p); [apply sound_emit; exact I | apply sound_ret; exact I]. }
  intros _ _.
  destruct (idx args >=? argc args).
  - apply sound_ret. simpl. now rewrite set_idx_same.
  - destruct (argv_at (argv args) (idx args)) as [fn|]; [|apply sound_halt; discriminate].
    apply sound_emit_then; [exact I|].
    apply sound_emit_then; [exact I|].
    destruct (w_readable w fn).
    + now apply sound_ret.
    + apply sound_emit_then; [exact I|]. now apply sound_ret.
Qed.

Lemma parser_chain_frame (fuel : nat) :
  forall (args : mrbc_args) (p : parser_state),
    sound is_loader_event (parser_chain fuel w args p)
      (fun r => fst r = set_idx args (idx (fst r))) (fun o => o <> Exit EXIT_SUCCESS).
Proof.
  induction fuel as [|fuel IH]; intros args p; simpl.
  - apply sound_halt; discriminate.
  - eapply sound_bind; [apply partial_hook_frame|].
    intros [[code a] p'] Ha. simpl in Ha.
    destruct (code <? 0).
    + apply sound_ret. exact Ha.
    + eapply sound_weaken; [apply IH | auto | | auto].
      intros [a' p''] Ha'. simpl in *. rewrite Ha', Ha. reflexivity.
Qed.

Lemma load_file_frame (args : mrbc_args) :
  sound is_loader_event (load_file w args)
    (fun r => snd r = set_idx args (idx (snd r))) (fun o => o <> Exit EXIT_SUCCESS).
Proof.
  unfold load_file.
  destruct (argv_at (argv args) (idx args)) as [input|]; [|apply sound_halt; discriminate].
  apply sound_bind with (Q1 := fun _ => True).
  { destruct (_ && _); [now apply sound_ret|].
    apply sound_emit_then; [exact I|].
    destruct (w_readable w input); [now apply sound_ret|].
    apply sound_emit_then; [exact I | now apply sound_ret]. }
  intros [[infile need_close]|] _.
  - apply sound_emit_then; [exact I|].
    apply sound_bind
      with (Q1 := fun r : bool * mrbc_args => snd r = set_idx args (idx (snd r))).
    + unfold mrb_load_file_cxt. destruct (_ <? _).
      * eapply sound_bind; [apply parser_chain_frame|].
        intros [a p] Ha. apply sound_ret. simpl in *. rewrite Ha. reflexivity.
      * now apply sound_ret.
    + intros [result a] Ha.
      apply sound_bind with (Q1 := fun _ => True).
      * apply sound_when; [intros _; apply sound_emit; exact I | exact I].
      * intros _ _. apply sound_ret. exact Ha.
  - apply sound_ret. simpl. now rewrite set_idx_same.
Qed.

End LoaderFrame.

(** X7. load_file and partial_hook change nothing of the configuration but
    the cursor, and all load_file does to the outside is open and close
    input files, record the cursor and print diagnostics: it opens no file
    for writing, allocates nothing and calls no codec. *)
Theorem loader_changes_only_cursor
    (w : world) (args : mrbc_args) (p : parser_state) (st : state) :
  match fst (load_file w args st) with
  | Val (_, a) => a = set_idx args (idx a)
  | Halt _ => True
  end /\
  match fst (partial_hook w args p st) with
  | Val (_, a, _) => a = set_idx args (idx a)
  | Halt _ => True
  end /\
  exists d, trace (snd (load_file w args st)) = trace st ++ d /\
            Forall is_loader_event d.
Proof.
  destruct (load_file_frame w args st) as [Hd Hr].
  destruct (partial_hook_frame w args p st) as [_ Hh].
  split; [|split; [|exact Hd]].
  - destruct (fst (load_file w args st)) as [[r a]|o]; [exact Hr | exact I].
  - destruct (fst (partial_hook w args p st)) as [[[c a] q]|o]; [exact Hh | exact I].
Qed.

Section ChainFacts.

Variable w : world.








End ChainFacts.



(** ** Whole runs *)

Section RunFacts.

Variable w : world.









End RunFacts.





(** ** dump_file, every branch *)

Ltac dump_cases w wfp args :=
  unfold dump_file;
  destruct (remove_lv args);
  destruct (initname args) as [init|];
  [ match goal with
    | |- context [match ?e with Some _ => _ | None => false end] =>
        destruct e as [?|]; [destruct (ptr_eqb _ _)|]
    end;
    destruct (has_flag args MRB_DUMP_STRUCT)
  | destruct (has_flag args MRB_DUMP_STATIC) eqn:?
  | match goal with
    | |- context [match ?e with Some _ => _ | None => false end] =>
        destruct e as [?|]; [destruct (ptr_eqb _ _)|]
    end;
    destruct (has_flag args MRB_DUMP_STRUCT)
  | destruct (has_flag args MRB_DUMP_STATIC) eqn:? ];
  unfold codec, when; unfold bind, emit, ret; cbv beta iota;
  cbn [trace nalloc fst snd];
  repeat match goal with
    | |- context [w_codec w ?c wfp =? MRB_DUMP_INVALID_ARGUMENT] =>
        destruct (Z.eqb_spec (w_codec w c wfp) MRB_DUMP_INVALID_ARGUMENT)
    | |- context [w_codec w ?c wfp =? MRB_DUMP_OK] =>
        destruct (Z.eqb_spec (w_codec w c wfp) MRB_DUMP_OK)
    end;
  cbn [negb]; cbv beta iota; cbn [trace nalloc fst snd].

(** X10. Every call of dump_file returns a status and calls at most one
    codec, on the stream it was given: none exactly when the static flag is
    set without an embed symbol, in which case the status is the
    invalid-argument one; otherwise one, whose status is the status returned,
    and which is the binary codec when there is no embed symbol. *)
Theorem dump_file_one_codec
    (w : world) (wfp : stream) (f : cptr) (args : mrbc_args) (st : state) :
  exists (n : Z) (new : list event),
    dump_file w wfp f args st = (Val n, MkState (trace st ++ new) (nalloc st)) /\
    match filter is_codec new with
    | [] =>
        initname args = None /\ has_flag args MRB_DUMP_STATIC = true /\
        n = MRB_DUMP_INVALID_ARGUMENT
    | [EvCodec c s] =>
        s = wfp /\ n = w_codec w c wfp /\
        match initname args with
        | None => c = Cbinary (flags args) /\ has_flag args MRB_DUMP_STATIC = false
        | Some init => c <> Cbinary (flags args)
        end
    | _ => False
    end.
Proof.
  destruct st as [tr k].
  dump_cases w wfp args;
    eexists; eexists;
    (split;
     [ rewrite <- ?app_assoc; cbn [app]; reflexivity
     | cbn; repeat split; (reflexivity || assumption || discriminate) ]).
Qed.

(** X11. dump_file prints a diagnostic exactly when the status it returns is
    not the ok status: a failure is never passed on silently, and a
    successful dump prints nothing. *)
Theorem dump_file_reports_failure
    (w : world) (wfp : stream) (f : cptr) (args : mrbc_args) (st : state) :
  exists (n : Z) (new : list event),
    dump_file w wfp f args st = (Val n, MkState (trace st ++ new) (nalloc st)) /\
    existsb is_stderr new = negb (n =? MRB_DUMP_OK).
Proof.
  destruct st as [tr k].
  dump_cases w wfp args;
    eexists; eexists;
    (split;
     [ rewrite <- ?app_assoc; cbn [app]; reflexivity
     | cbn;
       repeat match goal with
         | H : ?x = MRB_DUMP_OK |- _ => rewrite H in *
         | H : ?x = MRB_DUMP_INVALID_ARGUMENT |- _ => rewrite H in *
         end;
       try reflexivity; try discriminate;
       try (symmetry; apply negb_true_iff, Z.eqb_neq; assumption) ]).
Qed.

(** ** get_outfilename: the buffer, and deriving twice *)

Section DeriverMore.

Local Open Scope string_scope.
Local Open Scope nat_scope.

Lemma has_char_app (c : ascii) (a b : string) :
  has_char c (a ++ b) = has_char c a || has_char c b.
Proof. unfold has_char. now rewrite bytes_app, existsb_app. Qed.

Lemma nul_free_app (a b : string) :
  nul_free (a ++ b) = nul_free a && nul_free b.
Proof. unfold nul_free. rewrite has_char_app. now destruct (has_char NUL a). Qed.

Lemma length_bytes (s : string) : length (list_ascii_of_string s) = String.length s.
Proof. induction s as [|c s IH]; simpl; [reflexivity | now rewrite IH]. Qed.

Lemma string_length_app (a b : string) :
  String.length (a ++ b) = String.length a + String.length b.
Proof. induction a as [|c a IH]; simpl; [reflexivity | now rewrite IH]. Qed.

Lemma store_length (buf buf' : buffer) (pos : nat) (bytes : list ascii) :
  store buf pos bytes = Some buf' -> length buf' = length buf.
Proof.
  unfold store. destruct (Nat.leb_spec (pos + length bytes) (length buf)) as [Hle|];
    [|discriminate].
  intro H. injection H as <-.
  rewrite !length_app, length_map, length_firstn, length_skipn. lia.
Qed.

(** The buffer get_outfilename hands back has the size it asked
    mrb_malloc for. *)
Lemma get_outfilename_mem_length (infile ext : list ascii) (buf : buffer) :
  get_outfilename_mem infile ext = Some buf ->
  length buf
  = strlen infile + (if is_nul (hd NUL ext) then 0 else strlen ext) + 1.
Proof.
  unfold get_outfilename_mem.
  destruct (is_nul (hd NUL ext)); simpl negb; cbv iota beta.
  - unfold strncpy.
    destruct (store _ 0 _) as [b|] eqn:Hs; [|discriminate].
    intro H. injection H as <-.
    rewrite (store_length _ _ _ _ Hs). unfold mrb_malloc.
    rewrite repeat_length. lia.
  - unfold strncpy.
    destruct (store _ 0 _) as [b|] eqn:Hs; [|discriminate].
    apply store_length in Hs. unfold mrb_malloc in Hs. rewrite repeat_length in Hs.
    destruct (strrchr infile ".").
    + intro H. apply store_length in H. lia.
    + intro H. injection H as <-. lia.
Qed.

End DeriverMore.

(** X15. For all C strings, get_outfilename stays inside the buffer it
    allocates and hands back a terminated string: the buffer has
    strlen(infile) + strlen(ext) + 1 bytes, every store falls within it, and
    the name read back is shorter than the buffer. *)
Theorem get_outfilename_fits (infile ext : string) :
  nul_free infile = true -> nul_free ext = true ->
  exists (buf : buffer) (name : string),
    get_outfilename_mem (to_bytes infile) (to_bytes ext) = Some buf /\
    load_cstr buf = Some name /\
    length buf = (String.length infile + String.length ext + 1)%nat /\
    (String.length name < length buf)%nat.
Proof.
  intros Hi He.
  destruct (get_outfilename_total infile ext Hi He) as [name Hname].
  pose proof Hname as Hrun.
  unfold CStr.get_outfilename in Hrun.
  destruct (get_outfilename_mem (to_bytes infile) (to_bytes ext)) as [buf|] eqn:Hmem;
    [|discriminate].
  exists buf, name. split; [reflexivity|]. split; [exact Hrun|].
  assert (Hlen : length buf = (String.length infile + String.length ext + 1)%nat).
  { rewrite (get_outfilename_mem_length _ _ _ Hmem).
    unfold to_bytes. rewrite !strlen_clean by now apply nul_free_clean.
    rewrite !length_bytes.
    destruct ext as [|c ext]; simpl; [lia|].
    assert (Hc : is_nul c = false).
    { apply is_nul_false. apply nul_free_clean in He. apply He. now left. }
    rewrite Hc. lia. }
  split; [exact Hlen|]. rewrite Hlen.
  destruct (has_char "." infile) eqn:Hdot.
  - destruct (String.eqb_spec ext EmptyString) as [->|Hne].
    + rewrite (get_outfilename_plain infile EmptyString Hi He (or_intror eq_refl))
        in Hname.
      injection Hname as <-. lia.
    + destruct (last_dot_split infile Hdot) as (pre & post & -> & Hpost).
      rewrite (get_outfilename_dot pre post ext Hi He Hpost Hne) in Hname.
      injection Hname as <-.
      rewrite !string_length_app. simpl. lia.
  - rewrite (get_outfilename_plain infile ext Hi He (or_introl Hdot)) in Hname.
    injection Hname as <-. lia.
Qed.

Lemma get_outfilename_fits_witness :
  exists (buf : buffer) (name : string),
    get_outfilename_mem (to_bytes "a.rb") (to_bytes ".mrb") = Some buf /\
    load_cstr buf = Some name /\
    length buf = 9%nat /\ (String.length name < length buf)%nat.
Proof.
  exact (get_outfilename_fits "a.rb" ".mrb" eq_refl eq_refl).
Defined.

(** X12. Deriving is idempotent for an extension made of a dot and dot-free
    text (as [".mrb"], [".c"] and [".h"]): the name derived from an already
    derived name is that name again. *)
Theorem get_outfilename_idempotent (infile e name : string) :
  nul_free infile = true -> nul_free e = true -> has_char "." e = false ->
  CStr.get_outfilename infile (String "." e) = Some name ->
  CStr.get_outfilename name (String "." e) = Some name.
Proof.
  intros Hi He Hnodot Hname.
  assert (Hext : nul_free (String "." e) = true).
  { change (String "." e) with ("." ++ e)%string.
    rewrite nul_free_app, He. reflexivity. }
  destruct (has_char "." infile) eqn:Hdot.
  - destruct (last_dot_split infile Hdot) as (pre & post & -> & Hpost).
    rewrite (get_outfilename_dot pre post (String "." e) Hi Hext Hpost) in Hname
      by discriminate.
    injection Hname as <-.
    change (pre ++ String "." e)%string with (pre ++ "." ++ e)%string.
    apply get_outfilename_dot; try assumption; try discriminate.
    rewrite !nul_free_app in Hi |- *.
    apply andb_true_iff in Hi as [Hpre _]. now rewrite Hpre, He.
  - rewrite (get_outfilename_plain infile _ Hi Hext (or_introl Hdot)) in Hname.
    injection Hname as <-.
    apply get_outfilename_plain; auto.
Qed.

Lemma get_outfilename_idempotent_witness :
  CStr.get_outfilename "lib/app.mrb" ".mrb" = Some "lib/app.mrb"%string.
Proof.
  exact (get_outfilename_idempotent "lib/app.rb" "mrb" "lib/app.mrb"
           eq_refl eq_refl eq_refl eq_refl).
Defined.

(** X13. With an output path that has no dot, the header pass derives the
    output path itself and opens that very file for writing: the header
    pass truncates the file the primary pass was given. *)
Theorem header_pass_reopens_dotless_output
    (w : world) (args : mrbc_args) (o : cptr) (st : state) :
  has_flag args MRB_DUMP_HEADER = true ->
  outfile args = Some o -> nul_free (text o) = true ->
  has_char "." (text o) = false ->
  streq "-" (text o) = false ->
  exists new,
    trace (snd (main_header w args st))
    = trace st ++ EvMalloc (nalloc st)
        :: EvOpenWrite (text o) (w_writable w (text o)) :: new.
Proof.
  intros Hflag Hout Hnul Hnodot Hdash.
  pose proof (get_outfilename_plain (text o) C_HEAD_EXT Hnul eq_refl
                (or_introl Hnodot)) as Hname.
  unfold main_header, Mrbc.get_outfilename, lit.
  rewrite Hflag, Hout. cbn [text]. rewrite Hname.
  unfold bind, read_var, ret. cbn [text]. rewrite Hdash.
  destruct st as [tr k]. unfold emit, halt. cbn [trace nalloc].
  destruct (w_writable w (text o)); simpl; rewrite <- !app_assoc;
    eexists; reflexivity.
Qed.

Lemma header_pass_reopens_dotless_output_witness :
  exists new,
    trace (snd (main_header fair_world
                  (or_flags (set_outfile args_zero (Some (CPtr (BArgv 2) 0 "out")))
                     MRB_DUMP_HEADER)
                  init_state))
    = [] ++ EvMalloc 0 :: EvOpenWrite "out" true :: new.
Proof.
  exact (header_pass_reopens_dotless_output fair_world
           (or_flags (set_outfile args_zero (Some (CPtr (BArgv 2) 0 "out")))
              MRB_DUMP_HEADER)
           (CPtr (BArgv 2) 0 "out") init_state
           eq_refl eq_refl eq_refl eq_refl eq_refl).
Defined.

(** ** Options that take a value *)

Section ValueOptions.

Lemma argv_at_next (pre post : list string) (a nxt : string) :
  argv_at (pre ++ a :: nxt :: post) (Z.of_nat (length pre) + 1) = Some nxt.
Proof.
  replace (pre ++ a :: nxt :: post) with ((pre ++ [a]) ++ nxt :: post)
    by (now rewrite <- app_assoc).
  replace (Z.of_nat (length pre) + 1) with (Z.of_nat (length (pre ++ [a])))
    by (rewrite length_app; simpl; lia).
  apply argv_at_middle.
Qed.

Lemma argv_at_end (pre : list string) (a : string) :
  argv_at (pre ++ [a]) (Z.of_nat (length pre) + 1) = None.
Proof.
  unfold argv_at. destruct (Z.ltb_spec (Z.of_nat (length pre) + 1) 0); [reflexivity|].
  apply nth_error_None. rewrite length_app. simpl. lia.
Qed.

End ValueOptions.

(** X17. The value of [-o] and [-B] when nothing follows the letter: a bare
    [-o] takes the next element as the output path whatever it is, even one
    that looks like an option, and parsing goes on after it; a bare [-o] at
    the end of the vector sets the empty output path and is not an error; a
    bare [-B] at the end is rejected for its empty symbol name. *)
Theorem bare_value_options
    (pre post : list string) (nxt : string) (args : mrbc_args) (st : state) :
  outfile args = None ->
  parse_arg (pre ++ "-o"%string :: nxt :: post) (Z.of_nat (length pre)) args st
  = (Val (PNext (Z.of_nat (length pre) + 1)
            (set_outfile args (Some (argv_ptr (Z.of_nat (length pre) + 1) nxt)))),
     st) /\
  parse_arg (pre ++ ["-o"%string]) (Z.of_nat (length pre)) args st
  = (Val (PNext (Z.of_nat (length pre))
            (set_outfile args
               (Some (CPtr (BArgv (Z.of_nat (length pre))) 2 EmptyString)))),
     st) /\
  parse_arg (pre ++ ["-B"%string]) (Z.of_nat (length pre)) args st
  = (Val (PReturn (-1)
            (set_initname args
               (Some (CPtr (BArgv (Z.of_nat (length pre))) 2 EmptyString)))),
     MkState (trace st ++ [EvStderr MsgNoFunctionName]) (nalloc st)).
Proof.
  intro Hout. repeat split.
  - unfold parse_arg. rewrite argv_at_middle.
    change (char_at "-o" 0) with "-"%char. change (char_at "-o" 1) with "o"%char.
    cbn [Ascii.eqb Bool.eqb]. rewrite Hout.
    unfold option_value. change (char_at "-o" 2) with NUL.
    cbn [Ascii.eqb Bool.eqb NUL Ascii.zero]. rewrite argv_at_next. reflexivity.
  - unfold parse_arg. rewrite argv_at_middle.
    change (char_at "-o" 0) with "-"%char. change (char_at "-o" 1) with "o"%char.
    cbn [Ascii.eqb Bool.eqb]. rewrite Hout.
    unfold option_value. change (char_at "-o" 2) with NUL.
    cbn [Ascii.eqb Bool.eqb NUL Ascii.zero]. rewrite argv_at_end. reflexivity.
  - unfold parse_arg. rewrite argv_at_middle.
    change (char_at "-B" 0) with "-"%char. change (char_at "-B" 1) with "B"%char.
    cbn [Ascii.eqb Bool.eqb].
    unfold option_value. change (char_at "-B" 2) with NUL.
    cbn [Ascii.eqb Bool.eqb NUL Ascii.zero]. rewrite argv_at_end. reflexivity.
Qed.

Lemma bare_value_options_witness :
  fst (parse_args ["mrbc"; "-o"; "-c"; "x.rb"]%string args_zero init_state)
  = Val (3, set_outfile (args_start ["mrbc"; "-o"; "-c"; "x.rb"]%string)
              (Some (argv_ptr 2 "-c"))).
Proof.
  pose proof (proj1 (bare_value_options ["mrbc"%string] ["x.rb"%string] "-c"
                       (args_start ["mrbc"; "-o"; "-c"; "x.rb"]%string) init_state
                       eq_refl)) as Hstep.
  unfold parse_args. fold (args_start ["mrbc"; "-o"; "-c"; "x.rb"]%string).
  change (length ["mrbc"; "-o"; "-c"; "x.rb"]%string) with 4%nat.
  rewrite parse_loop_S. change (1 <? argc _) with true. cbv iota.
  unfold bind at 1.
  change ["mrbc"; "-o"; "-c"; "x.rb"]%string
    with (["mrbc"%string] ++ "-o"%string :: "-c"%string :: ["x.rb"%string]) at 1.
  change 1 with (Z.of_nat (length ["mrbc"%string])) at 1.
  rewrite Hstep. reflexivity.
Defined.

(** ** The exact trace of the loader *)

Section ExactRuns.

Context {A B : Type}.



End ExactRuns.



Section ExactLoader.

Variable w : world.





End ExactLoader.


